(** * Field mapping and workflow edge assembly of [compose]

    A shallow embedding of [compose/field_mapping.go] and of the edge
    assembly of [compose/workflow.go], with the properties of the
    field-mapping engine stated against it.

    Conventions of the embedding:
    - a Go call either returns or panics: the [go] monad; a Go function
      with results [(T, error)] returns a pair [(t, err)] in it, where
      [err = None] is the nil error;
    - Go maps are [gmap]s; the order in which [range] visits a map is left
      to the runtime, and is a parameter here ([go_range]);
    - values carry their dynamic type; a pointer is modelled together with
      its pointee and a map with its entries, which is adequate for the
      freshly allocated, unshared destinations the converter builds;
    - what [reflect] does is written out primitive by primitive in
      [Module reflect], panics included. *)

From stdpp Require Import gmap strings list fin_maps.

Set Warnings "-register-all".
Set Default Proof Using "Type".

Open Scope string_scope.
Open Scope list_scope.

(** ** Go calls: return or panic *)

Inductive go (A : Type) : Type :=
  | Return (a : A)
  | Panic.
Arguments Return {A} a.
Arguments Panic {A}.

#[global] Instance go_ret : MRet go := λ A a, Return a.
#[global] Instance go_bind : MBind go := λ A B f m,
  match m with
  | Return a => f a
  | Panic => Panic
  end.

(** ** Types, as [reflect.Type] shows them *)

(** The types of the embedding: three scalars, interfaces (given by their
    method names; [TInterface []] is [any]), pointers, slices, maps and
    structs.  A struct field is [(name, exported, type)]; [exported] is
    [reflect.StructField.IsExported].  Embedded fields and methods of
    concrete types are outside the universe. *)
Inductive rtype : Type :=
  | TBool
  | TInt
  | TString
  | TInterface (methods : list string)
  | TPtr (elem : rtype)
  | TSlice (elem : rtype)
  | TMap (key elem : rtype)
  | TStruct (name : string) (fields : list (string * bool * rtype)).

Inductive Kind : Type :=
  | KInvalid | KBool | KInt | KString | KInterface | KPtr | KSlice | KMap
  | KStruct.

#[global] Instance Kind_eq_dec : EqDecision Kind.
Proof. solve_decision. Defined.

Definition kind (t : rtype) : Kind :=
  match t with
  | TBool => KBool
  | TInt => KInt
  | TString => KString
  | TInterface _ => KInterface
  | TPtr _ => KPtr
  | TSlice _ => KSlice
  | TMap _ _ => KMap
  | TStruct _ _ => KStruct
  end.

(** Type identity ([==] on [reflect.Type]). *)
Fixpoint rtype_eqb (a b : rtype) : bool :=
  match a, b with
  | TBool, TBool => true
  | TInt, TInt => true
  | TString, TString => true
  | TInterface m1, TInterface m2 => bool_decide (m1 = m2)
  | TPtr x, TPtr y => rtype_eqb x y
  | TSlice x, TSlice y => rtype_eqb x y
  | TMap k1 e1, TMap k2 e2 => rtype_eqb k1 k2 && rtype_eqb e1 e2
  | TStruct n1 f1, TStruct n2 f2 =>
      bool_decide (n1 = n2) &&
      (fix fields_eqb (l1 l2 : list (string * bool * rtype)) : bool :=
         match l1, l2 with
         | [], [] => true
         | (x1, ex1, t1) :: r1, (x2, ex2, t2) :: r2 =>
             bool_decide (x1 = x2) && bool_decide (ex1 = ex2)
             && rtype_eqb t1 t2 && fields_eqb r1 r2
         | _, _ => false
         end) f1 f2
  | _, _ => false
  end.

(** [strType = reflect.TypeOf("")]. *)
Definition strType : rtype := TString.

(** ** Values *)

(** A value of the empty interface [any]: nil, or a value with its dynamic
    type.  A struct value lists its fields with their declarations, so its
    type can be read off it. *)
Inductive value : Type :=
  | VNil
  | VBool (b : bool)
  | VInt (z : Z)
  | VString (s : string)
  | VSlice (elem : rtype) (items : list value)
  | VPtr (elem : rtype) (pointee : option value)
  | VMap (key elem : rtype) (entries : option (gmap string value))
  | VStruct (name : string) (fields : list (string * bool * rtype * value)).

Definition fieldDecl (f : string * bool * rtype * value)
  : string * bool * rtype := f.1.

(** ** [FieldMapping] *)

Record FieldMapping : Type := mkFieldMapping {
  fromNodeKey : string;
  from : string;
  to : string
}.

(** ** Errors *)

(** One constructor per [fmt.Errorf]/[errors.New] of the two files; the
    payload is what the message prints.  [ErrExternal] stands for an error
    handed back by a collaborator ([mergeValues], the graph). *)
Inductive error : Type :=
  (* assignOne and its helpers *)
  | ErrEntireValueMismatch (src dst : rtype)
  | ErrToMapNotMap (t : rtype)
  | ErrToMapKeyNotString (t : rtype)
  | ErrToMapValueMismatch (key : string) (src dst : rtype)
  | ErrToFieldNotStruct (t : rtype)
  | ErrToFieldNotFound (field : string) (t : rtype)
  | ErrToFieldNotExported (field : string) (t : rtype)
  | ErrToFieldMismatch (field : string) (src dst : rtype)
  (* takeOne and its helpers *)
  | ErrFromFieldNotFound (field : string) (t : rtype)
  | ErrFromFieldNotExported (field : string) (t : rtype)
  | ErrFromMapKeyNotString (t : rtype)
  | ErrFromMapKeyNotFound (key : string) (t : rtype)
  | ErrFromUnsupportedShape (t : rtype)
  (* checkAndExtractFieldType *)
  | ErrTypeNotStringKeyMap (t : rtype)
  | ErrTypeNotStruct (t : rtype)
  | ErrTypeNoField (t : rtype) (field : string)
  | ErrTypeUnexportedField (t : rtype) (field : string)
  (* validateFieldMapping *)
  | ErrFromAllToAll
  | ErrSuccessorNotStructOrMap (t : rtype)
  | ErrPredecessorNotStructOrMap (t : rtype)
  | ErrStaticCheck (mapping : FieldMapping) (cause : error)
  | ErrMustNotAssignable (mapping : FieldMapping) (pt st : option rtype)
  | ErrRuntimeCheck (trueInType st : rtype)
  (* convertTo *)
  | ErrMergeValues (T : rtype) (field : string) (cause : error)
  (* workflow *)
  | ErrNodeNoInput (node : string)
  | ErrWholeInputNotAlone (node : string)
  | ErrSameField (node field : string)
  | ErrEndNoInput
  | ErrExternal (msg : string).

(** ** [reflect] *)

Module reflect.

(** [reflect.TypeOf]: the dynamic type, nil ([None]) for a nil interface. *)
Definition TypeOf (i : value) : option rtype :=
  match i with
  | VNil => None
  | VBool _ => Some TBool
  | VInt _ => Some TInt
  | VString _ => Some TString
  | VSlice e _ => Some (TSlice e)
  | VPtr e _ => Some (TPtr e)
  | VMap k e _ => Some (TMap k e)
  | VStruct n fs => Some (TStruct n (fieldDecl <$> fs))
  end.

(** A non-zero [reflect.Value]: the static type of the location it
    denotes, the content, [flagRO] (reached through an unexported field),
    [flagAddr], and where a write through it lands: [v_store c] is the
    variable the Value was derived from once the content is replaced by
    [c]. *)
Record Value : Type := mkValue {
  v_typ : rtype;
  v_val : value;
  v_ro : bool;
  v_addr : bool;
  v_store : value → value
}.

(** The zero Value is [None]. *)
Definition ValueOf (i : value) : option Value :=
  t ← TypeOf i; Some (mkValue t i false false id).

(** [reflect.ValueOf(&x).Elem()] for a variable [x] of static type [T]. *)
Definition ValueOfVar (T : rtype) (x : value) : option Value :=
  Some (mkValue T x false true id).

Definition Value_IsValid (v : option Value) : bool := bool_decide (is_Some v).

Definition Value_Kind (v : option Value) : Kind :=
  match v with
  | None => KInvalid
  | Some x => kind (v_typ x)
  end.

Definition Value_Type (v : option Value) : go rtype :=
  match v with
  | None => Panic
  | Some x => Return (v_typ x)
  end.

Definition Value_CanAddr (v : option Value) : bool :=
  match v with
  | None => false
  | Some x => v_addr x
  end.

Definition Value_CanSet (v : option Value) : bool :=
  match v with
  | None => false
  | Some x => v_addr x && negb (v_ro x)
  end.

Definition Value_CanInterface (v : option Value) : go bool :=
  match v with
  | None => Panic
  | Some x => Return (negb (v_ro x))
  end.

Definition Value_Interface (v : option Value) : go value :=
  match v with
  | None => Panic
  | Some x => if v_ro x then Panic else Return (v_val x)
  end.

(** [Elem] of a pointer: the zero Value for a nil pointer, else the
    pointee, addressable.  [Elem] of an interface: its dynamic value. *)
Definition Value_Elem (v : option Value) : go (option Value) :=
  match v with
  | None => Panic
  | Some x =>
      match v_typ x, v_val x with
      | TPtr e, VPtr e' None => Return None
      | TPtr e, VPtr e' (Some p) =>
          Return (Some (mkValue e p (v_ro x) true
                          (λ c, v_store x (VPtr e' (Some c)))))
      | TInterface _, i =>
          Return (t ← TypeOf i; Some (mkValue t i (v_ro x) false id))
      | _, _ => Panic
      end
  end.

Definition setField (toField : string) (c : value)
    (fs : list (string * bool * rtype * value))
  : list (string * bool * rtype * value) :=
  (λ f, if bool_decide (f.1.1.1 = toField) then (f.1, c) else f) <$> fs.

(** [FieldByName] panics unless the kind is Struct; the zero Value when
    no field has the name. *)
Definition Value_FieldByName (name : string) (v : option Value)
  : go (option Value) :=
  match v with
  | None => Panic
  | Some x =>
      match v_typ x, v_val x with
      | TStruct _ _, VStruct n fs =>
          match find (λ f, bool_decide (f.1.1.1 = name)) fs with
          | None => Return None
          | Some (_, exported, ft, c) =>
              Return (Some (mkValue ft c (v_ro x || negb exported) (v_addr x)
                              (λ c', v_store x (VStruct n (setField name c' fs)))))
          end
      | _, _ => Panic
      end
  end.

(** [MapIndex] panics unless the kind is Map; the zero Value when the key
    is absent (also in a nil map). *)
Definition Value_MapIndex (key : string) (v : option Value)
  : go (option Value) :=
  match v with
  | None => Panic
  | Some x =>
      match v_typ x, v_val x with
      | TMap _ e, VMap _ _ entries =>
          match entries ≫= (.!! key) with
          | None => Return None
          | Some c => Return (Some (mkValue e c (v_ro x) false (λ _, v_store x (v_val x))))
          end
      | _, _ => Panic
      end
  end.

(** [Set]: panics unless settable; yields the variable after the write. *)
Definition Value_Set (v x : option Value) : go value :=
  match v, x with
  | Some l, Some r => if v_addr l && negb (v_ro l) then Return (v_store l (v_val r)) else Panic
  | _, _ => Panic
  end.

(** [SetMapIndex]: panics on a nil map; yields the variable after the
    write.  Keys are strings here. *)
Definition Value_SetMapIndex (v key elem : option Value) : go value :=
  match v, key, elem with
  | Some m, Some k, Some e =>
      match v_typ m, v_val m, v_val k with
      | TMap _ _, VMap kt et (Some entries), VString s =>
          Return (v_store m (VMap kt et (Some (<[s := v_val e]> entries))))
      | _, _, _ => Panic
      end
  | _, _, _ => Panic
  end.

End reflect.

Import reflect.

(** ** The Go runtime and the collaborators *)

(** What the Go runtime decides: assignability of types
    ([reflect.Type.AssignableTo]) and the order in which [range] visits the
    entries of a map, some permutation of them. *)
Class GoRuntime : Type := {
  AssignableTo : rtype → rtype → bool;
  go_range : ∀ {A : Type}, list (string * A) → list (string * A);
  go_range_perm : ∀ (A : Type) (l : list (string * A)), go_range l ≡ₚ l
}.

Inductive assignableType : Type :=
  | assignableTypeMustNot
  | assignableTypeMust
  | assignableTypeMay.

(** Functions of the repository that the two files call and do not define:
    the assignability classifier, [generic.NewInstance], [mergeValues] and
    [schema.StreamReaderWithConvert] over an abstract stream type. *)
Class Collaborators (stream : Type) : Type := {
  checkAssignable : option rtype → option rtype → assignableType;
  NewInstance : rtype → value;
  mergeValues : list value → value * option error;
  StreamReaderWithConvert :
    (value → go (value * option error)) → stream → stream
}.

(** ** [reflect.Type] accessors that panic on the wrong kind *)

Definition Type_Key (t : rtype) : go rtype :=
  match t with
  | TMap k _ => Return k
  | _ => Panic
  end.

Definition Type_Elem (t : rtype) : go rtype :=
  match t with
  | TPtr e | TSlice e | TMap _ e => Return e
  | _ => Panic
  end.

Definition len (s : string) : nat := String.length s.

(** ** [FieldMapping]: methods and constructors *)

Definition FieldMapping_empty (m : FieldMapping) : bool :=
  bool_decide (len (from m) = 0) && bool_decide (len (to m) = 0).

Definition FromField (from : string) : FieldMapping := mkFieldMapping "" from "".
Definition ToField (to : string) : FieldMapping := mkFieldMapping "" "" to.
Definition MapFields (from to : string) : FieldMapping := mkFieldMapping "" from to.

(** The zero [reflect.Value] boxed in an [any], which [takeOne] returns
    next to its unsupported-shape error; its unexported fields are not
    listed. *)
Definition zeroReflectValue : value := VStruct "reflect.Value" [].

(** The loop [for output.Kind() == reflect.Ptr { output = output.Elem() }],
    by recursion on the static type of the location. *)
Fixpoint elemWhilePtr (typ : rtype) (val : value) (ro addr : bool)
    (store : value → value) : go (option Value) :=
  match typ with
  | TPtr e =>
      match val with
      | VPtr e' None => Return None
      | VPtr e' (Some p) =>
          elemWhilePtr e p ro true (λ c, store (VPtr e' (Some c)))
      | _ => Panic
      end
  | _ => Return (Some (mkValue typ val ro addr store))
  end.

Definition loopElem (output : option Value) : go (option Value) :=
  match output with
  | None => Return None
  | Some x => elemWhilePtr (v_typ x) (v_val x) (v_ro x) (v_addr x) (v_store x)
  end.

Section FieldMapping.

Context `{GoRuntime} {stream : Type} `{Collaborators stream}.

(** *** Extraction: [takeOne] *)

Definition checkAndExtractFromField (fromField : string) (input : option Value)
  : go (option Value * option error) :=
  f ← Value_FieldByName fromField input;
  if negb (Value_IsValid f) then
    t ← Value_Type input;
    Return (None, Some (ErrFromFieldNotFound fromField t))
  else
    canInterface ← Value_CanInterface f;
    if negb canInterface then
      t ← Value_Type input;
      Return (None, Some (ErrFromFieldNotExported fromField t))
    else Return (f, None).

Definition checkAndExtractFromMapKey (fromMapKey : string) (input : option Value)
  : go (option Value * option error) :=
  t ← Value_Type input;
  k ← Type_Key t;
  if negb (AssignableTo strType k) then
    Return (None, Some (ErrFromMapKeyNotString t))
  else
    v ← Value_MapIndex fromMapKey input;
    if negb (Value_IsValid v) then
      Return (None, Some (ErrFromMapKeyNotFound fromMapKey t))
    else Return (v, None).

(** The statements after the [switch] of [takeOne]. *)
Definition takeOne_return (r : option Value * option error)
  : go (value * option error) :=
  match r.2 with
  | Some err => Return (VNil, Some err)
  | None => taken ← Value_Interface r.1; Return (taken, None)
  end.

Definition takeOne (input : value) (from : string) : go (value * option error) :=
  if decide (len from = 0) then Return (input, None)
  else
    let inputValue := ValueOf input in
    match Value_Kind inputValue with
    | KMap =>
        checkAndExtractFromMapKey from inputValue ≫= takeOne_return
    | KPtr =>
        (* inputValue = inputValue.Elem(); fallthrough *)
        inputValue ← Value_Elem inputValue;
        checkAndExtractFromField from inputValue ≫= takeOne_return
    | KStruct =>
        checkAndExtractFromField from inputValue ≫= takeOne_return
    | _ =>
        t ← Value_Type inputValue;
        Return (zeroReflectValue, Some (ErrFromUnsupportedShape t))
    end.

(** [fieldMap(mappings)]: one [takeOne] per descriptor; an extraction
    error is turned into a panic. *)
Fixpoint fieldMap_loop (mappings : list FieldMapping) (input : value)
    (result : gmap string value) : go (gmap string value) :=
  match mappings with
  | [] => Return result
  | mapping :: rest =>
      '(taken, err) ← takeOne input (from mapping);
      match err with
      | Some _ => Panic
      | None => fieldMap_loop rest input (<[to mapping := taken]> result)
      end
  end.

Definition fieldMap (mappings : list FieldMapping) (input : value)
  : go (gmap string value * option error) :=
  result ← fieldMap_loop mappings input ∅;
  Return (result, None).

(** *** Injection: [assignOne] *)

Definition checkAndExtractToField (toField : string) (output toSet : option Value)
  : go (option Value * option error) :=
  output ← loopElem output;
  if negb (bool_decide (Value_Kind output = KStruct)) then
    t ← Value_Type output;
    Return (None, Some (ErrToFieldNotStruct t))
  else
    field ← Value_FieldByName toField output;
    if negb (Value_IsValid field) then
      t ← Value_Type output;
      Return (None, Some (ErrToFieldNotFound toField t))
    else if negb (Value_CanSet field) then
      t ← Value_Type output;
      Return (None, Some (ErrToFieldNotExported toField t))
    else
      tt ← Value_Type toSet;
      ft ← Value_Type field;
      if negb (AssignableTo tt ft) then
        Return (None, Some (ErrToFieldMismatch toField tt ft))
      else Return (field, None).

Definition checkAndExtractToMapKey (toMapKey : string) (output toSet : option Value)
  : go (option Value * option error) :=
  if negb (bool_decide (Value_Kind output = KMap)) then
    t ← Value_Type output;
    Return (None, Some (ErrToMapNotMap t))
  else
    t ← Value_Type output;
    k ← Type_Key t;
    if negb (AssignableTo strType k) then
      Return (None, Some (ErrToMapKeyNotString t))
    else
      tt ← Value_Type toSet;
      e ← Type_Elem t;
      if negb (AssignableTo tt e) then
        Return (None, Some (ErrToMapValueMismatch toMapKey tt e))
      else Return (ValueOf (VString toMapKey), None).

(** [assignOne[T](dest, taken, to)].  [reflect.ValueOf(dest)] is never
    addressable, so [destValue] is the variable [dest] itself, of static
    type [T].  [destValue.Interface().(T)] after a write is the variable
    after the write, which [Value_Set] and [Value_SetMapIndex] yield. *)
Definition assignOne (T : rtype) (dest taken : value) (to : string)
  : go (value * option error) :=
  let destValue := ValueOf dest in
  let destValue :=
    if negb (Value_CanAddr destValue) then ValueOfVar T dest else destValue in
  if decide (len to = 0) then
    let toSet := ValueOf taken in
    tt ← Value_Type toSet;
    dt ← Value_Type destValue;
    if negb (AssignableTo tt dt) then
      Return (dest, Some (ErrEntireValueMismatch tt dt))
    else
      root ← Value_Set destValue toSet;
      Return (root, None)
  else
    let toSet := ValueOf taken in
    if bool_decide (Value_Kind destValue = KMap) then
      '(key, err) ← checkAndExtractToMapKey to destValue toSet;
      match err with
      | Some e => Return (dest, Some e)
      | None =>
          root ← Value_SetMapIndex destValue key toSet;
          Return (root, None)
      end
    else
      '(field, err) ← checkAndExtractToField to destValue toSet;
      match err with
      | Some e => Return (dest, Some e)
      | None =>
          root ← Value_Set field toSet;
          Return (root, None)
      end.

(** *** The value converter: [convertTo] *)

(** The type assertion [x.(T)]: the dynamic type is [T], or implements
    the interface [T]; panics otherwise, and on a nil interface. *)
Definition typeAssert (T : rtype) (x : value) : go value :=
  match TypeOf x with
  | None => Panic
  | Some t =>
      let holds :=
        match T with
        | TInterface _ => AssignableTo t T
        | _ => rtype_eqb t T
        end in
      if holds then Return x else Panic
  end.

(** The first loop of [convertTo]:
    [field2Values[to] = append(field2Values[to], taken)]. *)
Definition convertTo_group (mappings : gmap string value)
  : gmap string (list value) :=
  foldl (λ (field2Values : gmap string (list value)) (e : string * value),
           <[e.1 := default [] (field2Values !! e.1) ++ [e.2]]> field2Values)
        ∅ (go_range (map_to_list mappings)).

(** The second loop of [convertTo], over the entries of [field2Values]
    in the order [range] yields them. *)
Fixpoint convertTo_assign (T : rtype) (t : value)
    (entries : list (string * list value)) : go (value * option error) :=
  match entries with
  | [] => Return (t, None)
  | (fieldName, values) :: rest =>
      taken ← match values with
              | [] => Panic      (* values[0] *)
              | v0 :: _ => Return v0
              end;
      '(taken, err) ← (if bool_decide (1 < length values)
                       then Return (mergeValues values)
                       else Return (taken, None));
      match err with
      | Some e => Return (t, Some (ErrMergeValues T fieldName e))
      | None =>
          '(t', err) ← assignOne T t taken fieldName;
          match err with
          | Some _ => Panic
          | None => convertTo_assign T t' rest
          end
      end
  end.

Definition convertTo (T : rtype) (mappings : gmap string value)
  : go (value * option error) :=
  match mappings !! "" with
  | Some whole =>
      (* to the entire successor input *)
      x ← typeAssert T whole; Return (x, None)
  | None =>
      let t := NewInstance T in
      let field2Values := convertTo_group mappings in
      convertTo_assign T t (go_range (map_to_list field2Values))
  end.

(** [buildFieldMappingConverter[I]()]: the input must be a
    [map[string]any]. *)
Definition buildFieldMappingConverter (I : rtype) (input : value)
  : go (value * option error) :=
  match input with
  | VMap TString (TInterface []) entries => convertTo I (default ∅ entries)
  | _ => Panic
  end.

End FieldMapping.

(** ** Static validation: [validateFieldMapping] *)

Fixpoint isFromAll (mappings : list FieldMapping) : bool :=
  match mappings with
  | [] => false
  | mapping :: rest =>
      if bool_decide (len (from mapping) = 0) then true else isFromAll rest
  end.

Fixpoint isToAll (mappings : list FieldMapping) : bool :=
  match mappings with
  | [] => false
  | mapping :: rest =>
      if bool_decide (len (to mapping) = 0) then true else isToAll rest
  end.

Definition validateStructOrMap (t : rtype) : bool :=
  match kind t with
  | KMap => true
  | KPtr => (* t = t.Elem(); fallthrough *) true
  | KStruct => true
  | _ => false
  end.

(** The loop [for typ.Kind() == reflect.Ptr { typ = typ.Elem() }]. *)
Fixpoint elemWhilePtrType (typ : rtype) : rtype :=
  match typ with
  | TPtr e => elemWhilePtrType e
  | _ => typ
  end.

Definition checkAndExtractFieldType (field : string) (typ : rtype)
  : option rtype * option error :=
  if decide (len field = 0) then (Some typ, None)
  else
    match typ with
    | TMap k e =>
        if negb (rtype_eqb k strType) then (None, Some (ErrTypeNotStringKeyMap typ))
        else (Some e, None)
    | _ =>
        let typ := elemWhilePtrType typ in
        match typ with
        | TStruct _ fs =>
            match find (λ f : string * bool * rtype, bool_decide (f.1.1 = field)) fs with
            | None => (None, Some (ErrTypeNoField typ field))
            | Some (_, exported, ft) =>
                if negb exported then (None, Some (ErrTypeUnexportedField typ field))
                else (Some ft, None)
            end
        | _ => (None, Some (ErrTypeNotStruct typ))
        end
    end.

Record handlerPair (stream : Type) : Type := mkHandlerPair {
  invoke : value → go (value * option error);
  transform : stream → stream
}.
Arguments mkHandlerPair {stream} invoke transform.
Arguments invoke {stream} h.
Arguments transform {stream} h.

(** The variables [validateFieldMapping] declares before its loop,
    [var (predecessorFieldType, successorFieldType reflect.Type; ...)].
    The loop assigns them in every iteration, and the [checker] closures
    built in the loop refer to [successorFieldType]: a Go closure captures
    the variable, not the value it held, so a closure is modelled as a
    function of the content of the variables at the time it runs. *)
Record captured : Type := mkCaptured {
  predecessorFieldType : option rtype;
  successorFieldType : option rtype
}.

Section Validation.

Context `{GoRuntime} {stream : Type} `{Collaborators stream}.

(** The closure [checker := func(a any) (any, error)] of the loop body.
    [reflect.TypeOf(a)] is nil for a nil [a], and a method call on it
    panics.  The text of the error prints [mapping], which is not kept. *)
Definition checker (σ : captured) (a : value) : go (value * option error) :=
  match TypeOf a, successorFieldType σ with
  | Some trueInType, Some st =>
      if negb (AssignableTo trueInType st) then
        Return (VNil, Some (ErrRuntimeCheck trueInType st))
      else Return (a, None)
  | _, _ => Panic
  end.

Definition fieldChecker (σ : captured) : handlerPair stream :=
  mkHandlerPair (checker σ) (StreamReaderWithConvert (checker σ)).

(** The loop over the descriptors.  The state is the pair of variables
    and the map [fieldCheckers], whose entries are closures. *)
Fixpoint validateFieldMapping_loop (predecessorType successorType : rtype)
    (mappings : list FieldMapping) (σ : captured)
    (fieldCheckers : gmap string (captured → handlerPair stream))
  : captured * gmap string (captured → handlerPair stream) * option error :=
  match mappings with
  | [] => (σ, fieldCheckers, None)
  | mapping :: rest =>
      let '(pft, err) := checkAndExtractFieldType (from mapping) predecessorType in
      let σ := mkCaptured pft (successorFieldType σ) in
      match err with
      | Some e => (σ, fieldCheckers, Some (ErrStaticCheck mapping e))
      | None =>
          let '(sft, err) := checkAndExtractFieldType (to mapping) successorType in
          let σ := mkCaptured (predecessorFieldType σ) sft in
          match err with
          | Some e => (σ, fieldCheckers, Some (ErrStaticCheck mapping e))
          | None =>
              match checkAssignable (predecessorFieldType σ) (successorFieldType σ) with
              | assignableTypeMustNot =>
                  (σ, fieldCheckers,
                   Some (ErrMustNotAssignable mapping (predecessorFieldType σ)
                           (successorFieldType σ)))
              | assignableTypeMay =>
                  validateFieldMapping_loop predecessorType successorType rest σ
                    (<[to mapping := fieldChecker]> fieldCheckers)
              | assignableTypeMust =>
                  validateFieldMapping_loop predecessorType successorType rest σ
                    fieldCheckers
              end
          end
      end
  end.

(** The loop of the returned [checker]:
    [for k, v := range fieldCheckers { if _, ok := mValue[k]; ok {...} }]. *)
Fixpoint checkFields (σ : captured)
    (entries : list (string * (captured → handlerPair stream)))
    (mValue : option (gmap string value)) : go (value * option error) :=
  match entries with
  | [] => Return (VMap TString (TInterface []) mValue, None)
  | (k, v) :: rest =>
      match mValue with
      | Some m =>
          match m !! k with
          | Some x =>
              '(y, err) ← invoke (v σ) x;
              match err with
              | Some e => Return (VNil, Some e)
              | None => checkFields σ rest (Some (<[k := y]> m))
              end
          | None => checkFields σ rest mValue
          end
      | None => checkFields σ rest mValue
      end
  end.

(** The closure [checker := func(value any) (any, error)] returned in the
    handler pair; [value.(map[string]any)] panics on any other type. *)
Definition checkAll (σ : captured)
    (fieldCheckers : gmap string (captured → handlerPair stream))
    (v : value) : go (value * option error) :=
  match v with
  | VMap TString (TInterface []) mValue =>
      checkFields σ (go_range (map_to_list fieldCheckers)) mValue
  | _ => Panic
  end.

Definition validateFieldMapping (predecessorType successorType : rtype)
    (mappings : list FieldMapping)
  : option (handlerPair stream) * option error :=
  (* check if mapping is legal *)
  if isFromAll mappings && isToAll mappings then
    (None, Some ErrFromAllToAll)
  else if negb (isToAll mappings) && negb (validateStructOrMap successorType) then
    (None, Some (ErrSuccessorNotStructOrMap successorType))
  else if negb (isFromAll mappings) && negb (validateStructOrMap predecessorType) then
    (None, Some (ErrPredecessorNotStructOrMap predecessorType))
  else
    let '(σ, fieldCheckers, err) :=
      validateFieldMapping_loop predecessorType successorType mappings
        (mkCaptured None None) ∅ in
    match err with
    | Some e => (None, Some e)
    | None =>
        if decide (size fieldCheckers = 0) then (None, None)
        else
          (Some (mkHandlerPair (checkAll σ fieldCheckers)
                   (StreamReaderWithConvert (checkAll σ fieldCheckers))),
           None)
    end.

End Validation.

(** ** Workflow edge assembly: [addEdgesWithMapping] *)

Module workflow.

(** [Mapping] of [workflow.go]. *)
Record Mapping : Type := mkMapping {
  fromNodeKey : string;
  from : string;
  to : string
}.

Definition Mapping_empty (m : Mapping) : bool :=
  bool_decide (len (from m) = 0) && bool_decide (len (to m) = 0).

Definition NewMapping (fromNodeKey : string) : Mapping :=
  mkMapping fromNodeKey "" "".
Definition From (name : string) (m : Mapping) : Mapping :=
  mkMapping (fromNodeKey m) name (to m).
Definition To (name : string) (m : Mapping) : Mapping :=
  mkMapping (fromNodeKey m) (from m) name.

Record WorkflowNode : Type := mkWorkflowNode {
  key : string;
  inputs : list Mapping
}.

(** The graph the workflow wraps: its state [G], the key of the virtual
    END node, and the two calls that add an edge; a call yields the graph
    after it and the error it returns. *)
Class Graph (G : Type) : Type := {
  END : string;
  AddEdge : string → string → G → G * option error;
  addEdgeWithMappings : string → string → list Mapping → G → G * option error
}.

Record Workflow (G : Type) : Type := mkWorkflow {
  gg : G;
  nodes : gmap string WorkflowNode;
  end_ : list Mapping;
  err : option error
}.
Arguments mkWorkflow {G} gg nodes end_ err.
Arguments gg {G} w.
Arguments nodes {G} w.
Arguments end_ {G} w.
Arguments err {G} w.

Section Assembly.

Context `{GoRuntime} {G : Type} `{Graph G}.

(** The loop [for i := range node.inputs] with its two maps [toSet]
    and [fromNode2Mappings]; [n] is [len(node.inputs)].  The block is
    written twice in the source, for a node and for END. *)
Fixpoint collectInputs (toNode : string) (n : nat) (inputs : list Mapping)
    (toSet : gmap string bool) (fromNode2Mappings : gmap string (list Mapping))
  : gmap string (list Mapping) * option error :=
  match inputs with
  | [] => (fromNode2Mappings, None)
  | input :: rest =>
      if bool_decide (len (to input) = 0) && bool_decide (1 < n) then
        (fromNode2Mappings, Some (ErrWholeInputNotAlone toNode))
      else if bool_decide (is_Some (toSet !! to input)) then
        (fromNode2Mappings, Some (ErrSameField toNode (to input)))
      else
        collectInputs toNode n rest (<[to input := true]> toSet)
          (<[fromNodeKey input :=
               default [] (fromNode2Mappings !! fromNodeKey input) ++ [input]]>
             fromNode2Mappings)
  end.

(** The loop [for fromNode, mappings := range fromNode2Mappings]. *)
Fixpoint addEdges (toNode : string) (groups : list (string * list Mapping))
    (g : G) : go (G * option error) :=
  match groups with
  | [] => Return (g, None)
  | (fromNode, mappings) :: rest =>
      first ← match mappings with
              | [] => Panic      (* mappings[0] *)
              | m :: _ => Return m
              end;
      let '(g, err) :=
        if Mapping_empty first then AddEdge fromNode toNode g
        else addEdgeWithMappings fromNode toNode mappings g in
      match err with
      | Some e => Return (g, Some e)
      | None => addEdges toNode rest g
      end
  end.

(** The body of [for _, node := range wf.nodes]. *)
Definition visitNode (node : WorkflowNode) (g : G) : go (G * option error) :=
  let toNode := key node in
  if decide (length (inputs node) = 0) then
    Return (g, Some (ErrNodeNoInput toNode))
  else
    let '(fromNode2Mappings, err) :=
      collectInputs toNode (length (inputs node)) (inputs node) ∅ ∅ in
    match err with
    | Some e => Return (g, Some e)
    | None => addEdges toNode (go_range (map_to_list fromNode2Mappings)) g
    end.

Fixpoint visitNodes (l : list (string * WorkflowNode)) (g : G)
  : go (G * option error) :=
  match l with
  | [] => Return (g, None)
  | (_, node) :: rest =>
      '(g, err) ← visitNode node g;
      match err with
      | Some e => Return (g, Some e)
      | None => visitNodes rest g
      end
  end.

(** The part of [addEdgesWithMapping] after the loop over the nodes. *)
Definition visitEnd (end_ : list Mapping) (g : G) : go (G * option error) :=
  if decide (length end_ = 0) then Return (g, Some ErrEndNoInput)
  else
    let '(fromNode2EndMappings, err) :=
      collectInputs END (length end_) end_ ∅ ∅ in
    match err with
    | Some e => Return (g, Some e)
    | None => addEdges END (go_range (map_to_list fromNode2EndMappings)) g
    end.

(** [addEdgesWithMapping]: the graph after the call and the error. *)
Definition addEdgesWithMapping (wf : Workflow G) : go (G * option error) :=
  '(g, err) ← visitNodes (go_range (map_to_list (nodes wf))) (gg wf);
  match err with
  | Some e => Return (g, Some e)
  | None => visitEnd (end_ wf) g
  end.

End Assembly.

End workflow.

(** ** A concrete runtime and concrete collaborators

    The theorems below hold for every runtime and every collaborator; the
    instances of this section are what the examples run on. *)

Definition methodSet (t : rtype) : list string :=
  match t with
  | TInterface ms => ms
  | _ => []
  end.

(** Go's assignability on the types of the embedding: identical types, or
    the destination is an interface the source implements. *)
Definition goAssignableTo (src dst : rtype) : bool :=
  rtype_eqb src dst
  || match dst with
     | TInterface ms => forallb (λ m, bool_decide (m ∈ methodSet src)) ms
     | _ => false
     end.

(** The runtime that visits a map in the order [map_to_list] lists it. *)
Definition listedOrder : GoRuntime :=
  {| AssignableTo := goAssignableTo;
     go_range := λ A l, l;
     go_range_perm := λ A l, reflexivity l |}.

(** The runtime that visits a map in the reverse of that order. *)
Definition reversedOrder : GoRuntime :=
  {| AssignableTo := goAssignableTo;
     go_range := λ A l, reverse l;
     go_range_perm := λ A l, reverse_Permutation l |}.

(** Modelled from the spec: the assignability classifier [checkAssignable],
    which [validateFieldMapping] calls and the two files do not define.
    [Always] when the source type is assignable to the destination type;
    [Conditional] when only the dynamic type of a run-time value can decide,
    the source being an interface that values of the destination type
    satisfy; [Never] otherwise, and for a nil type. *)
Definition checkAssignable_model (src dst : option rtype) : assignableType :=
  match src, dst with
  | Some s, Some d =>
      if goAssignableTo s d then assignableTypeMust
      else if bool_decide (kind s = KInterface) && goAssignableTo d s
           then assignableTypeMay
           else assignableTypeMustNot
  | _, _ => assignableTypeMustNot
  end.

Fixpoint zeroValue (t : rtype) : value :=
  match t with
  | TBool => VBool false
  | TInt => VInt 0
  | TString => VString ""
  | TInterface _ => VNil
  | TPtr e => VPtr e None
  | TSlice e => VSlice e []
  | TMap k e => VMap k e None
  | TStruct n fs => VStruct n ((λ f, (f, zeroValue f.2)) <$> fs)
  end.

(** Modelled from the spec: [generic.NewInstance], a zero-valued instance
    of the declared type, allocated: a map is made, a pointer points to a
    new instance. *)
Fixpoint NewInstance_model (t : rtype) : value :=
  match t with
  | TMap k e => VMap k e (Some ∅)
  | TPtr e => VPtr e (Some (NewInstance_model e))
  | _ => zeroValue t
  end.

(** Modelled from the spec: [mergeValues] where no merge policy applies to
    the values: it fails. *)
Definition mergeValues_model (vs : list value) : value * option error :=
  (VNil, Some (ErrExternal "no merge policy")).

(** Modelled from the spec: a stream as the list of its chunks, and
    [schema.StreamReaderWithConvert] applying the conversion to each chunk
    in order, an error chunk being forwarded. *)
Definition listStream : Type := list (go (value * option error)).

Definition StreamReaderWithConvert_model
    (convert : value → go (value * option error)) (s : listStream) : listStream :=
  (λ chunk, '(v, err) ← chunk;
            match err with
            | Some e => Return (v, Some e)
            | None => convert v
            end) <$> s.

Definition modelCollaborators : Collaborators listStream :=
  {| checkAssignable := checkAssignable_model;
     NewInstance := NewInstance_model;
     mergeValues := mergeValues_model;
     StreamReaderWithConvert := StreamReaderWithConvert_model |}.

(** A graph that records the edges it is given and accepts them all. *)
Definition edgeLog : Type := list (string * string * list workflow.Mapping).

Definition edgeLogGraph : workflow.Graph edgeLog :=
  {| workflow.END := "end";
     workflow.AddEdge := λ a b g, (g ++ [(a, b, [])], None);
     workflow.addEdgeWithMappings := λ a b ms g, (g ++ [(a, b, ms)], None) |}.

(** A graph that refuses every edge. *)
Definition refusingGraph : workflow.Graph unit :=
  {| workflow.END := "end";
     workflow.AddEdge := λ a b g, (g, Some (ErrExternal "edge refused"));
     workflow.addEdgeWithMappings :=
       λ a b ms g, (g, Some (ErrExternal "edge refused")) |}.

(** ** Predicates of the statements *)

(** The three legality tests at the head of [validateFieldMapping] pass. *)
Definition legalMappings (predecessorType successorType : rtype)
    (mappings : list FieldMapping) : bool :=
  negb (isFromAll mappings && isToAll mappings)
  && (isToAll mappings || validateStructOrMap successorType)
  && (isFromAll mappings || validateStructOrMap predecessorType).

(** Both field types of a descriptor resolve, and the classifier finds the
    pairing always assignable. *)
Definition alwaysAssignable {stream : Type} `{Collaborators stream}
    (predecessorType successorType : rtype) (m : FieldMapping) : Prop :=
  ∃ pt st,
    checkAndExtractFieldType (from m) predecessorType = (Some pt, None)
    ∧ checkAndExtractFieldType (to m) successorType = (Some st, None)
    ∧ checkAssignable (Some pt) (Some st) = assignableTypeMust.

(** The collaborators with another [mergeValues]. *)
Definition withMergeValues {stream : Type} (C : Collaborators stream)
    (merge : list value → value * option error) : Collaborators stream :=
  {| checkAssignable := @checkAssignable _ C;
     NewInstance := @NewInstance _ C;
     mergeValues := merge;
     StreamReaderWithConvert := @StreamReaderWithConvert _ C |}.

(** An entry of [field2Values] that holds exactly one value. *)
Definition singleValue (e : string * list value) : Prop := ∃ v, e.2 = [v].

(** The static type of the slot [f] of [v]: the declared type of the
    field, or the element type of the map. *)
Definition slotType (v : value) (f : string) : option rtype :=
  match v with
  | VStruct _ fs | VPtr _ (Some (VStruct _ fs)) =>
      (λ d : string * bool * rtype * value, d.1.2)
        <$> find (λ d, bool_decide (d.1.1.1 = f)) fs
  | VMap _ e _ => Some e
  | _ => None
  end.

(** [dest] is an allocated destination of the type of [v]: a struct with
    the same declarations, a non-nil pointer to one, or a made map. *)
Definition freshFor (v dest : value) : Prop :=
  match v, dest with
  | VStruct n fs, VStruct n' fs' => n' = n ∧ fieldDecl <$> fs' = fieldDecl <$> fs
  | VPtr e (Some (VStruct n fs)), VPtr e' (Some (VStruct n' fs')) =>
      e' = e ∧ n' = n ∧ fieldDecl <$> fs' = fieldDecl <$> fs
  | VMap k e (Some _), VMap k' e' (Some _) => k' = k ∧ e' = e
  | _, _ => False
  end.

(** The errors [addEdgesWithMapping] raises itself, and the node an error
    names. *)
Definition structural (e : error) : bool :=
  match e with
  | ErrNodeNoInput _ | ErrWholeInputNotAlone _ | ErrSameField _ _
  | ErrEndNoInput => true
  | _ => false
  end.

Definition errorNode (END : string) (e : error) : option string :=
  match e with
  | ErrNodeNoInput n | ErrWholeInputNotAlone n | ErrSameField n _ => Some n
  | ErrEndNoInput => Some END
  | _ => None
  end.

(** Two incoming descriptors have the same destination field. *)
Definition sameFieldTwice (inputs : list workflow.Mapping) : Prop :=
  ∃ i j a b, i ≠ j ∧ inputs !! i = Some a ∧ inputs !! j = Some b
             ∧ workflow.to a = workflow.to b.

(** A descriptor claims the whole input and is not the only one. *)
Definition wholeInputNotAlone (inputs : list workflow.Mapping) : Prop :=
  1 < length inputs ∧ ∃ m, m ∈ inputs ∧ workflow.to m = "".

Definition illegalInputs (inputs : list workflow.Mapping) : Prop :=
  inputs = [] ∨ wholeInputNotAlone inputs ∨ sameFieldTwice inputs.

(** ** Example data *)

Definition anyType : rtype := TInterface [].
Definition mapStringAny : rtype := TMap TString anyType.

(** [type P struct { A any; B int }] and
    [type Q struct { X string; Y int }]. *)
Definition exP : rtype := TStruct "P" [("A", true, anyType); ("B", true, TInt)].
Definition exQ : rtype := TStruct "Q" [("X", true, TString); ("Y", true, TInt)].

(** [type A struct { F any }], and a value of it whose field is nil. *)
Definition exA : rtype := TStruct "A" [("F", true, anyType)].
Definition exA_nil : value := VStruct "A" [("F", true, anyType, VNil)].
Definition exA_3 : value := VStruct "A" [("F", true, anyType, VInt 3)].

(** A value of [Q], and a mapping that holds it under the empty field name
    next to an entry for the field [X]. *)
Definition exWhole : value :=
  VStruct "Q" [("X", true, TString, VString "whole"); ("Y", true, TInt, VInt 0)].
Definition exWholeAndX : gmap string value :=
  {[ "" := exWhole; "X" := VString "dropped" ]}.

(** The mapping set [A → X, B → Y] from [P] to [Q]: the first pairing
    ([any] to [string]) is conditional, the second ([int] to [int]) is
    always assignable. *)
Definition exMappings : list FieldMapping :=
  [MapFields "A" "X"; MapFields "B" "Y"].

(** Two keyed maps for the handler of [exMappings]: in the first the value
    for [X] is a string, in the second it is an [int]. *)
Definition exHello : value :=
  VMap TString anyType (Some {[ "X" := VString "hello"; "Y" := VInt 5 ]}).
Definition exSeven : value :=
  VMap TString anyType (Some {[ "X" := VInt 7; "Y" := VInt 5 ]}).

(** A pointer to the [int] 5. *)
Definition exIntPointer : value := VPtr TInt (Some (VInt 5)).

(** A workflow of two nodes, neither with an input, and one END mapping. *)
Definition exTwoBareNodes : workflow.Workflow edgeLog :=
  workflow.mkWorkflow []
    {[ "a" := workflow.mkWorkflowNode "a" [];
       "b" := workflow.mkWorkflowNode "b" [] ]}
    [workflow.NewMapping "a"] None.

(** A workflow whose node [b] gets field [y] from two source nodes. *)
Definition exDuplicateField : workflow.Workflow edgeLog :=
  workflow.mkWorkflow []
    {[ "b" := workflow.mkWorkflowNode "b"
                [workflow.To "y" (workflow.NewMapping "nodeA");
                 workflow.To "y" (workflow.NewMapping "nodeB")] ]}
    [workflow.NewMapping "b"] None.

(** A workflow whose node [a] is legal and whose node [b] gets field [y]
    twice, on the graph that refuses every edge. *)
Definition exRefused : workflow.Workflow unit :=
  workflow.mkWorkflow tt
    {[ "a" := workflow.mkWorkflowNode "a" [workflow.NewMapping "start"];
       "b" := workflow.mkWorkflowNode "b"
                [workflow.To "y" (workflow.NewMapping "nodeA");
                 workflow.To "y" (workflow.NewMapping "nodeB")] ]}
    [workflow.NewMapping "b"] None.

(** ** The workflow builder: [Add*Node], [AddInput], [AddEnd], [Compile] *)

Module builder.

Import workflow.

(** A workflow under construction.  The nodes of [wf.nodes] are pointers,
    which [Add*Node] also hands to the caller and [AddInput] writes
    through: [objects] is the store of the node objects, a pointer is an
    index in it. *)
Record Builder (G : Type) : Type := mkBuilder {
  objects : list WorkflowNode;
  b_gg : G;
  b_nodes : gmap string nat;
  b_end : list Mapping;
  b_err : option error
}.
Arguments mkBuilder {G} objects b_gg b_nodes b_end b_err.
Arguments objects {G} b.
Arguments b_gg {G} b.
Arguments b_nodes {G} b.
Arguments b_end {G} b.
Arguments b_err {G} b.

(** [NewWorkflow], on the graph [NewGraph] made. *)
Definition NewWorkflow {G : Type} (g : G) : Builder G := mkBuilder [] g ∅ [] None.

(** [AddChatModelNode], [AddChatTemplateNode], [AddToolsNode],
    [AddRetrieverNode], [AddEmbeddingNode], [AddIndexerNode],
    [AddLoaderNode], [AddDocumentTransformerNode], [AddGraphNode] and
    [AddLambdaNode] have one body; [add] is the call each of them makes on
    [wf.gg], with the key, the component and the options it was given.
    The result is the pointer to the new node and the workflow after the
    call. *)
Definition AddNode {G : Type} (add : G → G * option error) (key : string)
    (b : Builder G) : nat * Builder G :=
  let node := length (objects b) in
  let objects' := objects b ++ [mkWorkflowNode key []] in
  match b_err b with
  | Some _ => (node, mkBuilder objects' (b_gg b) (b_nodes b) (b_end b) (b_err b))
  | None =>
      let nodes' := <[key := node]> (b_nodes b) in
      let '(g, err) := add (b_gg b) in
      (node, mkBuilder objects' g nodes' (b_end b) err)
  end.

(** [n.AddInput(inputs...)]: [n.inputs = append(n.inputs, inputs...)]. *)
Definition AddInput {G : Type} (n : nat) (new : list Mapping) (b : Builder G)
  : Builder G :=
  mkBuilder
    (alter (λ node, mkWorkflowNode (key node) (inputs node ++ new)) n (objects b))
    (b_gg b) (b_nodes b) (b_end b) (b_err b).

(** [wf.AddEnd(inputs...)]: [wf.end = inputs]. *)
Definition AddEnd {G : Type} (new : list Mapping) (b : Builder G) : Builder G :=
  mkBuilder (objects b) (b_gg b) (b_nodes b) new (b_err b).

(** The workflow as [addEdgesWithMapping] reads it, each pointer followed. *)
Definition workflowOf {G : Type} (b : Builder G) : Workflow G :=
  mkWorkflow (b_gg b) (omap (λ n, objects b !! n) (b_nodes b)) (b_end b) (b_err b).

(** What [Compile] and [compile] take from the graph package:
    whether the options ask for [NodeTriggerMode(AnyPredecessor)]
    ([newGraphCompileOptions(opts...).nodeTriggerMode == AnyPredecessor],
    resp. [options.nodeTriggerMode == AnyPredecessor]), the option
    [WithNodeTriggerMode(AllPredecessor)], the assignment
    [options.nodeTriggerMode = AllPredecessor], and [gg.Compile],
    [gg.compile]. *)
Class Compiler (G opt options runnable : Type) : Type := {
  requestsAnyPredecessor : list opt → bool;
  withAllPredecessor : opt;
  gg_Compile : list opt → G → option runnable * option error;
  optionsAnyPredecessor : options → bool;
  setAllPredecessor : options → options;
  gg_compile : options → G → option runnable * option error
}.

(** The errors of [Compile]: one it passes on, or its own
    "workflow does not support NodeTriggerMode(AnyPredecessor)". *)
Inductive compileError : Type :=
  | ErrOf (e : error)
  | ErrAnyPredecessor.

Section Compile.

Context `{GoRuntime} {G opt options runnable : Type} `{Graph G}
  `{Compiler G opt options runnable}.

(** [wf.Compile(ctx, opts...)]: the graph after the call, the runnable and
    the error. *)
Definition Compile (opts : list opt) (b : Builder G)
  : go (G * option runnable * option compileError) :=
  match b_err b with
  | Some e => Return (b_gg b, None, Some (ErrOf e))
  | None =>
      if requestsAnyPredecessor opts then
        Return (b_gg b, None, Some ErrAnyPredecessor)
      else
        let opts := opts ++ [withAllPredecessor] in
        '(g, err) ← addEdgesWithMapping (workflowOf b);
        match err with
        | Some e => Return (g, None, Some (ErrOf e))
        | None =>
            let '(r, err) := gg_Compile opts g in
            Return (g, r, ErrOf <$> err)
        end
  end.

(** [wf.compile(ctx, options)], which does not look at [wf.err]. *)
Definition compile (o : options) (b : Builder G)
  : go (G * option runnable * option compileError) :=
  if optionsAnyPredecessor o then Return (b_gg b, None, Some ErrAnyPredecessor)
  else
    let o := setAllPredecessor o in
    '(g, err) ← addEdgesWithMapping (workflowOf b);
    match err with
    | Some e => Return (g, None, Some (ErrOf e))
    | None =>
        let '(r, err) := gg_compile o g in
        Return (g, r, ErrOf <$> err)
    end.

End Compile.

(** A call of the builder, and a sequence of calls. *)
Inductive call (G : Type) : Type :=
  | CallAddNode (add : G → G * option error) (key : string)
  | CallAddInput (n : nat) (new : list Mapping)
  | CallAddEnd (new : list Mapping).
Arguments CallAddNode {G} add key.
Arguments CallAddInput {G} n new.
Arguments CallAddEnd {G} new.

Definition perform {G : Type} (b : Builder G) (c : call G) : Builder G :=
  match c with
  | CallAddNode add key => (AddNode add key b).2
  | CallAddInput n new => AddInput n new b
  | CallAddEnd new => AddEnd new b
  end.

End builder.

(** ** [String] of a descriptor *)

Definition FieldMapping_String (m : FieldMapping) : string :=
  "from "
  +:+ (if bool_decide (from m = "") then "" else from m +:+ "(field) of ")
  +:+ fromNodeKey m
  +:+ (if bool_decide (to m = "") then "" else " to " +:+ to m +:+ "(field)")
  +:+ "; ".

Definition Mapping_String (m : workflow.Mapping) : string :=
  "from "
  +:+ (if bool_decide (workflow.from m = "") then ""
       else workflow.from m +:+ "(field) of ")
  +:+ "node '" +:+ workflow.fromNodeKey m +:+ "'"
  +:+ (if bool_decide (workflow.to m = "") then ""
       else " to " +:+ workflow.to m +:+ "(field)")
  +:+ "; ".

(** ** Further predicates of the statements *)

(** [dest] is an allocated value of type [T] that has slots: a struct, a
    non-nil pointer to a struct, or a made map. *)
Definition instanceOf (T : rtype) (dest : value) : Prop :=
  match T, dest with
  | TStruct n decls, VStruct n' fs => n' = n ∧ fieldDecl <$> fs = decls
  | TPtr (TStruct n decls), VPtr e (Some (VStruct n' fs)) =>
      e = TStruct n decls ∧ n' = n ∧ fieldDecl <$> fs = decls
  | TMap k e, VMap k' e' (Some _) => k' = k ∧ e' = e
  | _, _ => False
  end.

(** How [validateFieldMapping] classifies a descriptor: the verdict of
    [checkAssignable] on its two field types when both resolve. *)
Definition pairing {stream : Type} `{Collaborators stream}
    (predecessorType successorType : rtype) (m : FieldMapping)
  : option assignableType :=
  match checkAndExtractFieldType (from m) predecessorType,
        checkAndExtractFieldType (to m) successorType with
  | (Some pt, None), (Some st, None) => Some (checkAssignable (Some pt) (Some st))
  | _, _ => None
  end.

Definition accepted {stream : Type} `{Collaborators stream}
    (predecessorType successorType : rtype) (m : FieldMapping) : Prop :=
  pairing predecessorType successorType m = Some assignableTypeMust
  ∨ pairing predecessorType successorType m = Some assignableTypeMay.

(** The graph accepts every edge it is given. *)
Definition acceptsEveryEdge {G : Type} `{workflow.Graph G} : Prop :=
  (∀ a b g, (workflow.AddEdge a b g).2 = None)
  ∧ (∀ a b ms g, (workflow.addEdgeWithMappings a b ms g).2 = None).

(** Every registered pointer of a workflow under construction refers to a
    node object that carries the key it is registered under. *)
Definition registeredUnderOwnKey {G : Type} (b : builder.Builder G) : Prop :=
  ∀ k n, builder.b_nodes b !! k = Some n →
         ∃ node, builder.objects b !! n = Some node ∧ workflow.key node = k.

(** The field [f] is the destination of two incoming descriptors. *)
Definition sameField (inputs : list workflow.Mapping) (f : string) : Prop :=
  ∃ i j a b, i ≠ j ∧ inputs !! i = Some a ∧ inputs !! j = Some b
             ∧ workflow.to a = f ∧ workflow.to b = f.

(** The error [e] is the structural error that names the node [toNode],
    and what it says of the incoming descriptors of the node is the case:
    there is none, one with an empty [to] is not alone, or the field it
    names is the destination of two. *)
Definition explains (toNode : string) (inputs : list workflow.Mapping)
    (e : error) : Prop :=
  match e with
  | ErrNodeNoInput n => n = toNode ∧ inputs = []
  | ErrWholeInputNotAlone n => n = toNode ∧ wholeInputNotAlone inputs
  | ErrSameField n f => n = toNode ∧ sameField inputs f
  | _ => False
  end.

(** The same for END, whose error for no input has a text of its own. *)
Definition explainsEnd (END : string) (inputs : list workflow.Mapping)
    (e : error) : Prop :=
  match e with
  | ErrEndNoInput => inputs = []
  | ErrWholeInputNotAlone n => n = END ∧ wholeInputNotAlone inputs
  | ErrSameField n f => n = END ∧ sameField inputs f
  | _ => False
  end.

(** The error [e] names a node of the workflow, or END, and says what is
    wrong with its incoming descriptors. *)
Definition blames {G : Type} `{workflow.Graph G} (wf : workflow.Workflow G)
    (e : error) : Prop :=
  (∃ k node, workflow.nodes wf !! k = Some node
             ∧ errorNode workflow.END e = Some (workflow.key node)
             ∧ explains (workflow.key node) (workflow.inputs node) e)
  ∨ (errorNode workflow.END e = Some workflow.END
     ∧ explainsEnd workflow.END (workflow.end_ wf) e).

(** The error [e] is one a call on the graph returned. *)
Definition graphError {G : Type} `{workflow.Graph G} (e : error) : Prop :=
  (∃ fromNode toNode g, (workflow.AddEdge fromNode toNode g).2 = Some e)
  ∨ (∃ fromNode toNode ms g,
       (workflow.addEdgeWithMappings fromNode toNode ms g).2 = Some e).

(** ** Further example data *)

(** A value of [P], [P{A: "a", B: 7}]. *)
Definition exPValue : value :=
  VStruct "P" [("A", true, anyType, VString "a"); ("B", true, TInt, VInt 7)].

(** A legal workflow: node [b] takes field [y] from [nodeA] and field [z]
    from [nodeB], END takes the output of [b]. *)
Definition exLegalNode : workflow.WorkflowNode :=
  workflow.mkWorkflowNode "b"
    [workflow.To "y" (workflow.NewMapping "nodeA");
     workflow.To "z" (workflow.NewMapping "nodeB")].

Definition exLegal : workflow.Workflow edgeLog :=
  workflow.mkWorkflow [] {[ "b" := exLegalNode ]} [workflow.NewMapping "b"] None.

(** Compile options as booleans, [true] asking for
    [NodeTriggerMode(AnyPredecessor)], and a graph compiler that succeeds. *)
Definition exCompiler : builder.Compiler edgeLog bool bool unit :=
  {| builder.requestsAnyPredecessor := existsb id;
     builder.withAllPredecessor := false;
     builder.gg_Compile := λ _ _, (Some tt, None);
     builder.optionsAnyPredecessor := id;
     builder.setAllPredecessor := λ _, false;
     builder.gg_compile := λ _ _, (Some tt, None) |}.

(** A call on the graph that fails. *)
Definition exFailingAdd (g : edgeLog) : edgeLog * option error :=
  (g, Some (ErrExternal "node already present")).

(** The builder of [exLegal]: node [b] added, its two inputs added in two
    calls, END added. *)
Definition exBuilder : builder.Builder edgeLog :=
  builder.AddEnd [workflow.NewMapping "b"]
    (builder.AddInput 0 [workflow.To "z" (workflow.NewMapping "nodeB")]
       (builder.AddInput 0 [workflow.To "y" (workflow.NewMapping "nodeA")]
          (builder.AddNode (λ g, (g, None)) "b" (builder.NewWorkflow [])).2)).

(** * Properties *)

(** ** Auxiliary facts *)

Lemma len_zero (s : string) : len s = 0 ↔ s = "".
Proof. destruct s; simpl; split; intros; congruence. Qed.

Lemma isFromAll_spec (ms : list FieldMapping) :
  isFromAll ms = true ↔ ∃ m, m ∈ ms ∧ from m = "".
Proof.
  induction ms as [|m ms IH]; simpl.
  - split; [done | intros (m & Hm & _); by apply elem_of_nil in Hm].
  - case_bool_decide as Hlen.
    + split; [intros _ | done]. exists m. split; [left | by apply len_zero].
    + rewrite IH. split.
      * intros (m' & Hin & Hm'). exists m'. split; [by right | done].
      * intros (m' & Hin & Hm'). apply elem_of_cons in Hin as [-> | Hin].
        -- by apply len_zero in Hm'.
        -- by exists m'.
Qed.

Lemma isToAll_spec (ms : list FieldMapping) :
  isToAll ms = true ↔ ∃ m, m ∈ ms ∧ to m = "".
Proof.
  induction ms as [|m ms IH]; simpl.
  - split; [done | intros (m & Hm & _); by apply elem_of_nil in Hm].
  - case_bool_decide as Hlen.
    + split; [intros _ | done]. exists m. split; [left | by apply len_zero].
    + rewrite IH. split.
      * intros (m' & Hin & Hm'). exists m'. split; [by right | done].
      * intros (m' & Hin & Hm'). apply elem_of_cons in Hin as [-> | Hin].
        -- by apply len_zero in Hm'.
        -- by exists m'.
Qed.

Lemma isToAll_false (ms : list FieldMapping) :
  isToAll ms = false ↔ ∀ m, m ∈ ms → to m ≠ "".
Proof.
  destruct (isToAll ms) eqn:E.
  - apply isToAll_spec in E as (m & Hin & Hm). split; [done | intros Hno].
    by destruct (Hno m Hin).
  - split; [intros _ m Hin Hm | done].
    assert (isToAll ms = true) as E' by (apply isToAll_spec; eauto). congruence.
Qed.

Lemma validateStructOrMap_false (t : rtype) :
  validateStructOrMap t = false ↔ kind t ≠ KMap ∧ kind t ≠ KPtr ∧ kind t ≠ KStruct.
Proof. destruct t; cbn; intuition congruence. Qed.

(** [loopElem] is the loop it stands for: one [Elem] while the kind is
    Ptr. *)
Lemma loopElem_unfold (output : option Value) :
  loopElem output
  = if bool_decide (Value_Kind output = KPtr)
    then Value_Elem output ≫= loopElem
    else Return output.
Proof.
  destruct output as [[typ val ro addr store]|]; [|done].
  destruct typ; try done. simpl.
  destruct val as [| | | | |e' [p|]| |]; done.
Qed.

Lemma checkAndExtractFieldType_resolved field typ o :
  checkAndExtractFieldType field typ = (o, None) → ∃ t, o = Some t.
Proof.
  unfold checkAndExtractFieldType. intros Heq.
  repeat case_match; simplify_eq; eauto.
Qed.

Lemma find_same_decl (fs fs' : list (string * bool * rtype * value)) f :
  fieldDecl <$> fs' = fieldDecl <$> fs →
  fieldDecl <$> find (λ d, bool_decide (d.1.1.1 = f)) fs'
  = fieldDecl <$> find (λ d, bool_decide (d.1.1.1 = f)) fs.
Proof.
  revert fs'. induction fs as [|d fs IH]; intros [|d' fs']; try done.
  rewrite !fmap_cons. intros [= Hd Hfs]. simpl.
  unfold fieldDecl in Hd. rewrite Hd.
  case_bool_decide; simpl; [by unfold fieldDecl; rewrite Hd|]. by apply IH.
Qed.

Lemma find_setField (fs : list (string * bool * rtype * value)) f x d :
  find (λ d, bool_decide (d.1.1.1 = f)) fs = Some d →
  find (λ d, bool_decide (d.1.1.1 = f)) (setField f x fs) = Some (d.1, x).
Proof.
  induction fs as [|d0 fs IH]; [done|]. simpl.
  destruct (bool_decide (d0.1.1.1 = f)) eqn:E; simpl.
  - intros [= ->]. by rewrite E.
  - intros Hfind. rewrite E. by apply IH.
Qed.

(** ** The static validator *)

Section ValidationFacts.

Context `{GoRuntime} {stream : Type} `{Collaborators stream}.

Lemma validateFieldMapping_loop_always pred succ ms σ
    (fc : gmap string (captured → handlerPair stream)) :
  Forall (alwaysAssignable pred succ) ms →
  ∃ σ', validateFieldMapping_loop pred succ ms σ fc = (σ', fc, None).
Proof.
  intros Hall. revert σ.
  induction Hall as [|m ms (pt & st & Hp & Hs & Hc) _ IH]; intros σ.
  - by exists σ.
  - simpl. rewrite Hp, Hs. simpl. rewrite Hc. apply IH.
Qed.

(** The loop fails only with a static-check error about one descriptor. *)
Lemma validateFieldMapping_loop_error pred succ ms σ
    (fc : gmap string (captured → handlerPair stream)) σ' fc' e :
  validateFieldMapping_loop pred succ ms σ fc = (σ', fc', Some e) →
  (∃ m c, e = ErrStaticCheck m c) ∨ (∃ m a b, e = ErrMustNotAssignable m a b).
Proof.
  revert σ fc. induction ms as [|m ms IH]; intros σ fc; simpl; [done|].
  destruct (checkAndExtractFieldType (from m) pred) as [pft [e1|]]; simpl.
  { intros [= <- <- <-]. left. eauto. }
  destruct (checkAndExtractFieldType (to m) succ) as [sft [e2|]]; simpl.
  { intros [= <- <- <-]. left. eauto. }
  destruct (checkAssignable pft sft).
  - intros [= <- <- <-]. right. eauto.
  - apply IH.
  - apply IH.
Qed.

(** C5.  A mapping set with a descriptor whose [from] is empty and a
    descriptor whose [to] is empty is rejected with the
    from-all-to-all error, whatever the two types and whatever the
    classifier: no field type is resolved and nothing is classified
    before the rejection. *)
Theorem validateFieldMapping_rejects_from_all_to_all pred succ ms :
  (∃ m, m ∈ ms ∧ from m = "") →
  (∃ m, m ∈ ms ∧ to m = "") →
  validateFieldMapping pred succ ms = (None, Some ErrFromAllToAll).
Proof.
  intros Hfrom%isFromAll_spec Hto%isToAll_spec.
  unfold validateFieldMapping. by rewrite Hfrom, Hto.
Qed.

(** C2, as amended.  [validateFieldMapping] fails with the
    successor-shape error exactly when no descriptor has an empty [to]
    and the kind of the successor's input type is none of map, pointer
    and struct; a mapping set with an empty-[to] descriptor is never
    rejected by this check. *)
Theorem validateFieldMapping_successor_shape pred succ ms :
  (validateFieldMapping pred succ ms).2 = Some (ErrSuccessorNotStructOrMap succ)
  ↔ (∀ m, m ∈ ms → to m ≠ "")
    ∧ kind succ ≠ KMap ∧ kind succ ≠ KPtr ∧ kind succ ≠ KStruct.
Proof.
  rewrite <- isToAll_false, <- validateStructOrMap_false.
  unfold validateFieldMapping.
  destruct (isToAll ms) eqn:Hto; rewrite ?andb_true_r, ?andb_false_r; simpl.
  - split; [|by intros [? _]].
    destruct (isFromAll ms); simpl; [done|].
    destruct (validateStructOrMap pred); simpl; [|done].
    destruct (validateFieldMapping_loop _ _ _ _ _) as [[σ fc] [e|]] eqn:Hloop.
    + simpl. intros [= ->].
      by apply validateFieldMapping_loop_error in Hloop as [(?&?&?)|(?&?&?&?)].
    + by case_decide.
  - destruct (validateStructOrMap succ) eqn:Hs; simpl; [|done].
    split; [|by intros [_ ?]].
    destruct (negb (isFromAll ms) && negb (validateStructOrMap pred)); [done|].
    destruct (validateFieldMapping_loop _ _ _ _ _) as [[σ fc] [e|]] eqn:Hloop.
    + simpl. intros [= ->].
      by apply validateFieldMapping_loop_error in Hloop as [(?&?&?)|(?&?&?&?)].
    + by case_decide.
Qed.

(** C3, as amended.  For a legal mapping set all of whose pairings the
    classifier finds always assignable, [validateFieldMapping] succeeds
    and returns no handler pair: both results are nil. *)
Theorem validateFieldMapping_always_assignable pred succ ms :
  legalMappings pred succ ms = true →
  Forall (alwaysAssignable pred succ) ms →
  validateFieldMapping pred succ ms = (None, None).
Proof.
  unfold legalMappings, validateFieldMapping.
  intros [[H1%negb_true_iff H2]%andb_true_iff H3]%andb_true_iff Hall.
  rewrite H1.
  destruct (isToAll ms), (isFromAll ms), (validateStructOrMap succ),
    (validateStructOrMap pred); simpl in *; try done;
    destruct (validateFieldMapping_loop_always pred succ ms
                (mkCaptured None None) ∅ Hall) as [σ' ->]; done.
Qed.

(** After a run of the loop without error, [successorFieldType] holds the
    destination type of the last descriptor. *)
Lemma validateFieldMapping_loop_last pred succ ms lastm σ
    (fc : gmap string (captured → handlerPair stream)) σ' fc' :
  validateFieldMapping_loop pred succ (ms ++ [lastm]) σ fc = (σ', fc', None) →
  ∃ st, checkAndExtractFieldType (to lastm) succ = (Some st, None)
        ∧ successorFieldType σ' = Some st.
Proof.
  revert σ fc. induction ms as [|m ms IH]; intros σ fc; simpl.
  - destruct (checkAndExtractFieldType (from lastm) pred) as [pft [e1|]]; [done|].
    destruct (checkAndExtractFieldType (to lastm) succ) as [sft [e2|]] eqn:Hto; [done|].
    destruct (checkAndExtractFieldType_resolved _ _ _ Hto) as [st ->]. simpl.
    destruct (checkAssignable pft (Some st)); intros [= <- <-]; eauto.
  - destruct (checkAndExtractFieldType (from m) pred) as [pft [e1|]]; [done|].
    destruct (checkAndExtractFieldType (to m) succ) as [sft [e2|]]; [done|].
    simpl. destruct (checkAssignable pft sft); [done| |]; apply IH.
Qed.

Lemma validateFieldMapping_loop_checkers pred succ ms σ
    (fc : gmap string (captured → handlerPair stream)) σ' fc' err :
  map_Forall (λ _ c, c = fieldChecker) fc →
  validateFieldMapping_loop pred succ ms σ fc = (σ', fc', err) →
  map_Forall (λ _ c, c = fieldChecker) fc'.
Proof.
  revert σ fc. induction ms as [|m ms IH]; intros σ fc Hfc; simpl.
  - by intros [= <- <- <-].
  - destruct (checkAndExtractFieldType (from m) pred) as [pft [e1|]];
      [by intros [= <- <- <-]|].
    destruct (checkAndExtractFieldType (to m) succ) as [sft [e2|]];
      [by intros [= <- <- <-]|].
    simpl. destruct (checkAssignable pft sft).
    + by intros [= <- <- <-].
    + by apply IH.
    + apply IH. by apply map_Forall_insert_2.
Qed.

(** What the guards of a returned handler pair test: every one of them is
    the same closure, run on the variables as the loop left them, so every
    guarded field is tested against the destination type of the last
    descriptor of the mapping set. *)
Lemma validateFieldMapping_guards_use_last_type pred succ ms lastm h :
  validateFieldMapping pred succ (ms ++ [lastm]) = (Some h, None) →
  ∃ σ fc st,
    checkAndExtractFieldType (to lastm) succ = (Some st, None)
    ∧ successorFieldType σ = Some st
    ∧ map_Forall (λ _ c, c = fieldChecker) fc
    ∧ invoke h = checkAll σ fc.
Proof.
  unfold validateFieldMapping.
  destruct (_ && _); [done|]. destruct (_ && _); [done|]. destruct (_ && _); [done|].
  destruct (validateFieldMapping_loop _ _ _ _ _) as [[σ fc] [e|]] eqn:Hloop; [done|].
  case_decide; [done|]. intros [= <-].
  destruct (validateFieldMapping_loop_last _ _ _ _ _ _ _ _ Hloop) as (st & Hst & Hσ).
  exists σ, fc, st. repeat split; try done.
  eapply validateFieldMapping_loop_checkers; [|exact Hloop]. apply map_Forall_empty.
Qed.

Lemma checker_decides σ a ta st :
  TypeOf a = Some ta → successorFieldType σ = Some st →
  checker σ a = if AssignableTo ta st then Return (a, None)
                else Return (VNil, Some (ErrRuntimeCheck ta st)).
Proof.
  intros Ha Hst. unfold checker. rewrite Ha, Hst. by destruct (AssignableTo ta st).
Qed.

End ValidationFacts.

(** The rejection of C5 on [FromField "a"] next to [ToField "b"]. *)
Lemma validateFieldMapping_rejects_from_all_to_all_witness :
  (∃ m, m ∈ [FromField "a"; ToField "b"] ∧ from m = "")
  ∧ (∃ m, m ∈ [FromField "a"; ToField "b"] ∧ to m = "")
  ∧ @validateFieldMapping listedOrder listStream modelCollaborators
      TInt TInt [FromField "a"; ToField "b"]
    = (None, Some ErrFromAllToAll).
Proof.
  assert (∃ m, m ∈ [FromField "a"; ToField "b"] ∧ from m = "") as Hfrom.
  { exists (ToField "b"). split; [|reflexivity]. apply list_elem_of_In. simpl. tauto. }
  assert (∃ m, m ∈ [FromField "a"; ToField "b"] ∧ to m = "") as Hto.
  { exists (FromField "a"). split; [|reflexivity]. apply list_elem_of_In. simpl. tauto. }
  split; [exact Hfrom|]. split; [exact Hto|].
  exact (@validateFieldMapping_rejects_from_all_to_all
           listedOrder listStream modelCollaborators TInt TInt _ Hfrom Hto).
Defined.

(** C2, the claim as written fails twice.  With no empty [to] and a
    successor of type [int] the successor-shape error is raised; with an
    empty [to] and the same successor it is not, and validation succeeds. *)
Lemma validateFieldMapping_successor_shape_counterexample :
  isToAll [MapFields "B" "Y"] = false
  ∧ (@validateFieldMapping listedOrder listStream modelCollaborators
       exP TInt [MapFields "B" "Y"]).2
    = Some (ErrSuccessorNotStructOrMap TInt)
  ∧ isToAll [FromField "B"] = true
  ∧ validateStructOrMap TInt = false
  ∧ @validateFieldMapping listedOrder listStream modelCollaborators
      exP TInt [FromField "B"]
    = (None, None).
Proof. repeat split; reflexivity. Qed.

(** The amended C2 at the first of these inputs. *)
Lemma validateFieldMapping_successor_shape_witness :
  (@validateFieldMapping listedOrder listStream modelCollaborators
     exP TInt [MapFields "B" "Y"]).2
  = Some (ErrSuccessorNotStructOrMap TInt).
Proof.
  apply (@validateFieldMapping_successor_shape
           listedOrder listStream modelCollaborators exP TInt [MapFields "B" "Y"]).
  split; [|repeat split; discriminate].
  intros m Hm%list_elem_of_In. simpl in Hm. destruct Hm as [<-|[]]. discriminate.
Defined.

(** C3, the claim as written fails: on a legal mapping set whose one
    pairing ([int] to [int]) is always assignable, the handler pair that
    [validateFieldMapping] returns is nil. *)
Lemma validateFieldMapping_always_assignable_counterexample :
  legalMappings exP exQ [MapFields "B" "Y"] = true
  ∧ Forall (@alwaysAssignable listStream modelCollaborators exP exQ)
      [MapFields "B" "Y"]
  ∧ (@validateFieldMapping listedOrder listStream modelCollaborators
       exP exQ [MapFields "B" "Y"]).1
    = None.
Proof.
  split; [reflexivity|]. split; [|reflexivity].
  repeat constructor. exists TInt, TInt. repeat split; reflexivity.
Qed.

(** The amended C3 at that input. *)
Lemma validateFieldMapping_always_assignable_witness :
  legalMappings exP exQ [MapFields "B" "Y"] = true
  ∧ Forall (@alwaysAssignable listStream modelCollaborators exP exQ)
      [MapFields "B" "Y"]
  ∧ @validateFieldMapping listedOrder listStream modelCollaborators
      exP exQ [MapFields "B" "Y"]
    = (None, None).
Proof.
  assert (Forall (@alwaysAssignable listStream modelCollaborators exP exQ)
            [MapFields "B" "Y"]) as Hall.
  { repeat constructor. exists TInt, TInt. repeat split; reflexivity. }
  split; [reflexivity|]. split; [exact Hall|].
  exact (@validateFieldMapping_always_assignable
           listedOrder listStream modelCollaborators exP exQ [MapFields "B" "Y"]
           eq_refl Hall).
Defined.

(** ** The value converter *)

Section ConverterFacts.

Context `{GoRuntime} {stream : Type} `{Collaborators stream}.

(** The first loop of [convertTo] over entries with distinct keys. *)
Lemma convertTo_group_lookup (l : list (string * value))
    (acc : gmap string (list value)) k :
  NoDup l.*1 → (∀ k, k ∈ l.*1 → acc !! k = None) →
  foldl (λ (field2Values : gmap string (list value)) (e : string * value),
           <[e.1 := default [] (field2Values !! e.1) ++ [e.2]]> field2Values)
        acc l !! k
  = match (list_to_map l : gmap string value) !! k with
    | Some v => Some [v]
    | None => acc !! k
    end.
Proof.
  revert acc. induction l as [|[k0 v0] l IH]; intros acc Hnd Hacc; csimpl.
  - by rewrite lookup_empty.
  - rewrite fmap_cons in Hnd, Hacc. apply NoDup_cons in Hnd as [Hk0 Hnd].
    rewrite IH; [|exact Hnd|].
    + rewrite (Hacc k0) by (apply elem_of_cons; by left). simpl.
      destruct (decide (k = k0)) as [->|Hne].
      * rewrite lookup_insert_eq.
        by rewrite (not_elem_of_list_to_map_1 _ _ Hk0), lookup_insert_eq.
      * by rewrite !lookup_insert_ne by congruence.
    + intros k' Hk'. rewrite lookup_insert_ne by (intros ->; done).
      apply Hacc. apply elem_of_cons. by right.
Qed.

Lemma convertTo_group_singletons (m : gmap string value) :
  convertTo_group m = (λ v, [v]) <$> m.
Proof.
  unfold convertTo_group. apply map_eq. intros k.
  pose proof (go_range_perm _ (map_to_list m)) as Hperm.
  assert (NoDup (go_range (map_to_list m)).*1) as Hnd.
  { rewrite Hperm. apply NoDup_fst_map_to_list. }
  rewrite convertTo_group_lookup; [|done|by intros].
  rewrite (list_to_map_proper _ _ Hnd Hperm), list_to_map_to_list.
  rewrite lookup_fmap, lookup_empty. by destruct (m !! k).
Qed.

Lemma convertTo_entries_single (m : gmap string value) :
  Forall singleValue (go_range (map_to_list (convertTo_group m))).
Proof.
  rewrite go_range_perm, convertTo_group_singletons.
  apply Forall_forall. intros [k vs] Hin%elem_of_map_to_list.
  rewrite lookup_fmap in Hin. destruct (m !! k) as [v|]; simplify_eq/=.
  by exists v.
Qed.

Lemma convertTo_assign_no_error T t entries :
  Forall singleValue entries →
  convertTo_assign T t entries = Panic
  ∨ ∃ t', convertTo_assign T t entries = Return (t', None).
Proof.
  intros Hall. revert t.
  induction Hall as [|[fieldName values] entries [v Hv] _ IH]; intros t; simpl.
  - right. by exists t.
  - simpl in Hv. subst values. simpl.
    destruct (assignOne T t v fieldName) as [[t' [e|]]|]; simpl; auto.
Qed.

Lemma convertTo_assign_merge_irrelevant merge T t entries :
  Forall singleValue entries →
  @convertTo_assign _ _ (withMergeValues _ merge) T t entries
  = convertTo_assign T t entries.
Proof.
  intros Hall. revert t.
  induction Hall as [|[fieldName values] entries [v Hv] _ IH]; intros t; simpl.
  - done.
  - simpl in Hv. subst values. simpl.
    destruct (assignOne T t v fieldName) as [[t' [e|]]|]; simpl; auto.
Qed.

(** C10.  The keys of the map given to [convertTo] are distinct, so every
    destination field accumulates exactly one value in [field2Values];
    the merge branch is never taken: [convertTo] panics or returns a nil
    error, never the merge-failure error, and its result is the same
    whatever [mergeValues] is. *)
Theorem convertTo_one_value_per_field T (m : gmap string value) :
  convertTo_group m = (λ v, [v]) <$> m
  ∧ (convertTo T m = Panic ∨ ∃ t, convertTo T m = Return (t, None))
  ∧ (∀ merge, @convertTo _ _ (withMergeValues _ merge) T m = convertTo T m).
Proof.
  split; [apply convertTo_group_singletons|]. split.
  - unfold convertTo. destruct (m !! "") as [whole|].
    + destruct (typeAssert T whole); simpl; eauto.
    + apply convertTo_assign_no_error, convertTo_entries_single.
  - intros merge. unfold convertTo. destruct (m !! "") as [whole|]; [done|].
    simpl. apply convertTo_assign_merge_irrelevant, convertTo_entries_single.
Qed.

(** C1, as amended.  The whole-input shortcut is taken exactly when the
    empty field name is present in the mapping, alone or not.  When it is,
    [convertTo] returns the value stored under it, asserted to [T], which
    is its result on the mapping with this entry alone; when it is not,
    the destination is built field by field from a new instance. *)
Theorem convertTo_whole_input T (m : gmap string value) :
  (∀ whole, m !! "" = Some whole →
     convertTo T m = convertTo T {[ "" := whole ]}
     ∧ convertTo T m = (x ← typeAssert T whole; Return (x, None)))
  ∧ (m !! "" = None →
     convertTo T m
     = convertTo_assign T (NewInstance T)
         (go_range (map_to_list (convertTo_group m)))).
Proof.
  unfold convertTo. split.
  - intros whole Hm. by rewrite Hm, lookup_singleton_eq.
  - intros Hm. by rewrite Hm.
Qed.

(** C8.  When [assignOne] returns an error, the destination it returns is
    the one it was given: every error is returned before the first write. *)
Theorem assignOne_error_keeps_destination T dest taken to d' e :
  assignOne T dest taken to = Return (d', Some e) → d' = dest.
Proof.
  unfold assignOne, checkAndExtractToMapKey, checkAndExtractToField.
  unfold mbind, go_bind. intros Heq.
  repeat case_match; simplify_eq; done.
Qed.

End ConverterFacts.

(** C1, the claim as written fails: next to the empty field name the
    mapping has an entry for [X]; [convertTo] takes the shortcut all the
    same and returns the whole value, in which the entry for [X] is lost. *)
Lemma convertTo_whole_input_counterexample :
  exWholeAndX !! "X" = Some (VString "dropped")
  ∧ @convertTo listedOrder listStream modelCollaborators exQ exWholeAndX
    = Return (exWhole, None).
Proof. split; reflexivity. Qed.

(** The amended C1 at that input. *)
Lemma convertTo_whole_input_witness :
  exWholeAndX !! "" = Some exWhole
  ∧ @convertTo listedOrder listStream modelCollaborators exQ exWholeAndX
    = @convertTo listedOrder listStream modelCollaborators exQ {[ "" := exWhole ]}.
Proof.
  split; [reflexivity|].
  exact (proj1 (proj1 (@convertTo_whole_input listedOrder listStream
                         modelCollaborators exQ exWholeAndX) exWhole eq_refl)).
Defined.

(** C8 on a type mismatch: an [int] for the string field [X]. *)
Lemma assignOne_error_keeps_destination_witness :
  @assignOne listedOrder exQ (NewInstance_model exQ) (VInt 1) "X"
  = Return (NewInstance_model exQ, Some (ErrToFieldMismatch "X" TInt TString))
  ∧ NewInstance_model exQ = NewInstance_model exQ.
Proof.
  split; [reflexivity|].
  exact (@assignOne_error_keeps_destination listedOrder exQ
           (NewInstance_model exQ) (VInt 1) "X" (NewInstance_model exQ)
           (ErrToFieldMismatch "X" TInt TString) eq_refl).
Defined.

(** ** The runtime guards of a handler pair *)

(** C4 fails on the code.  For the mapping set [A → X, B → Y] validation
    succeeds with a handler pair that guards [X] alone, the pairing of [A]
    and [X] being conditional.  Its guard tests the value for [X] against
    [int], the destination type of the last descriptor, and not against
    [string], the type of [X]: the string "hello", assignable to [X], is
    rejected, and the [int] 7, not assignable to [X], passes. *)
Theorem validateFieldMapping_guard_tests_last_type :
  ∃ h,
    @validateFieldMapping listedOrder listStream modelCollaborators exP exQ exMappings
    = (Some h, None)
    ∧ checkAssignable_model (Some anyType) (Some TString) = assignableTypeMay
    ∧ goAssignableTo TString TString = true
    ∧ invoke h exHello = Return (VNil, Some (ErrRuntimeCheck TString TInt))
    ∧ goAssignableTo TInt TString = false
    ∧ invoke h exSeven = Return (exSeven, None).
Proof. eexists. split; [reflexivity|]. repeat split; reflexivity. Qed.

(** With the conditional descriptor alone the guard tests against the type
    of [X], as intended. *)
Lemma validateFieldMapping_single_guard :
  ∃ h,
    @validateFieldMapping listedOrder listStream modelCollaborators
      exP exQ [MapFields "A" "X"]
    = (Some h, None)
    ∧ invoke h exHello = Return (exHello, None)
    ∧ invoke h exSeven = Return (VNil, Some (ErrRuntimeCheck TInt TString)).
Proof. eexists. split; [reflexivity|]. repeat split; reflexivity. Qed.

(** ** Extraction, and extraction followed by injection *)

Section ExtractorFacts.

Context `{GoRuntime}.

(** X1.  A value that is no map, pointer or struct gets the unsupported-shape
    error. *)
Lemma takeOne_unsupported_shape input from t :
  from ≠ "" → TypeOf input = Some t → validateStructOrMap t = false →
  takeOne input from = Return (zeroReflectValue, Some (ErrFromUnsupportedShape t)).
Proof.
  intros Hf Ht Hshape. unfold takeOne, ValueOf.
  destruct (decide (len from = 0)) as [?%len_zero|_]; [done|]. rewrite Ht. simpl.
  destruct t; try done.
Qed.

(** A pointer to anything but a struct makes [takeOne] panic: after
    [Elem], [FieldByName] is called on a Value that is no struct. *)
Lemma takeOne_pointer_to_non_struct e p from :
  from ≠ "" → kind e ≠ KStruct → takeOne (VPtr e p) from = Panic.
Proof.
  intros Hf He. unfold takeOne, ValueOf, checkAndExtractFromField.
  destruct (decide (len from = 0)) as [?%len_zero|_]; [done|]. simpl.
  destruct p as [p|]; simpl; [|done].
  destruct e; try done.
Qed.

(** So does a nil input: the unsupported-shape branch asks the zero Value
    for its type. *)
Lemma takeOne_nil_panics from : from ≠ "" → takeOne VNil from = Panic.
Proof.
  intros Hf. unfold takeOne.
  by destruct (decide (len from = 0)) as [?%len_zero|_].
Qed.

(** X2.  Extraction then injection gives the value back, when the value
    extracted is not nil: for a struct, a pointer to a struct or a map [v]
    whose slot [f] holds [x], of a dynamic type assignable to the static
    type of the slot, injecting [x] in the slot [f] of an allocated
    destination of the type of [v] succeeds, and the slot then holds [x]. *)
Lemma roundtrip_non_nil v f x T t tx dest :
  f ≠ "" → TypeOf v = Some T →
  takeOne v f = Return (x, None) →
  slotType v f = Some t → TypeOf x = Some tx → AssignableTo tx t = true →
  freshFor v dest →
  ∃ dest', assignOne T dest x f = Return (dest', None)
           ∧ takeOne dest' f = Return (x, None).
Proof.
  intros Hf HT Htake Hslot Hx Hassign Hfresh.
  assert (len f ≠ 0) as Hlen by (by rewrite len_zero).
  unfold assignOne, takeOne, checkAndExtractFromField, checkAndExtractFromMapKey,
    checkAndExtractToField, checkAndExtractToMapKey, takeOne_return, loopElem,
    ValueOf, ValueOfVar in *.
  destruct (decide (len f = 0)) as [|_]; [done|].
  destruct v as [| | | | |e [p|]|k e [m|]|n fs]; try done; simpl in HT; simplify_eq.
  - (* a pointer to a struct *)
    destruct p as [| | | | | | |n fs]; try done.
    destruct dest as [| | | | |e' [[| | | | | | |n' fs']|]| |]; try done.
    destruct Hfresh as (-> & -> & Hdecl).
    destruct e as [| | | | | | |sn sfs]; try done.
    pose proof (find_same_decl fs fs' f Hdecl) as Hsame.
    rewrite Hx. simpl in *.
    destruct (find _ fs) as [[[[fn ex] ft] c]|] eqn:Hfind; simpl in *; [|done].
    destruct (find _ fs') as [[[[fn' ex'] ft'] c']|] eqn:Hfind'; simpl in *; [|done].
    unfold fieldDecl in Hsame. simpl in Hsame. simplify_eq.
    destruct ex; simpl in *; [|done]. simplify_eq. rewrite Hassign. simpl.
    eexists. split; [done|]. simpl.
    by rewrite (find_setField _ _ _ _ Hfind').
  - (* a map *)
    destruct dest as [| | | | | |k' e' [m'|]|]; try done.
    destruct Hfresh as [-> ->]. rewrite Hx. simpl in *.
    destruct (AssignableTo strType k) eqn:Hk; simpl in *; [|done].
    destruct (m !! f) as [c|] eqn:Hm; simpl in *; [|done]. simplify_eq.
    rewrite Hassign. simpl. eexists. split; [done|]. simpl.
    rewrite Hk. simpl. by rewrite lookup_insert_eq.
  - (* a struct *)
    destruct dest as [| | | | | | |n' fs']; try done.
    destruct Hfresh as (-> & Hdecl).
    pose proof (find_same_decl fs fs' f Hdecl) as Hsame.
    rewrite Hx. simpl in *.
    destruct (find _ fs) as [[[[fn ex] ft] c]|] eqn:Hfind; simpl in *; [|done].
    destruct (find _ fs') as [[[[fn' ex'] ft'] c']|] eqn:Hfind'; simpl in *; [|done].
    unfold fieldDecl in Hsame. simpl in Hsame. simplify_eq.
    destruct ex; simpl in *; [|done]. simplify_eq. rewrite Hassign. simpl.
    eexists. split; [done|]. simpl.
    by rewrite (find_setField _ _ _ _ Hfind').
Qed.

End ExtractorFacts.

(** C7 fails on the code.  The field [F], of type [any], of [exA_nil] is
    nil: extraction succeeds and yields nil, and injecting this value in
    the field [F] of a new instance of the same type panics, [assignOne]
    asking the zero Value [reflect.ValueOf(nil)] for its type. *)
Theorem roundtrip_nil_field_panics :
  @takeOne listedOrder exA_nil "F" = Return (VNil, None)
  ∧ @assignOne listedOrder exA (NewInstance_model exA) VNil "F" = Panic.
Proof. split; reflexivity. Qed.

(** The same field holding 3 goes round. *)
Lemma roundtrip_non_nil_example :
  ∃ dest',
    @assignOne listedOrder exA (NewInstance_model exA) (VInt 3) "F"
    = Return (dest', None)
    ∧ @takeOne listedOrder dest' "F" = Return (VInt 3, None).
Proof.
  apply (@roundtrip_non_nil listedOrder exA_3 "F" (VInt 3) exA anyType TInt
           (NewInstance_model exA)); try reflexivity; [discriminate|by split].
Defined.

(** C9 fails on the code.  A pointer to an [int] is neither a struct, a
    pointer to one nor a map, and [takeOne] with a field name panics on it
    instead of returning the unsupported-shape error. *)
Theorem takeOne_pointer_to_scalar_panics :
  validateStructOrMap TInt = false
  ∧ @takeOne listedOrder exIntPointer "X" = Panic.
Proof. split; reflexivity. Qed.

(** The scalar itself gets the error. *)
Lemma takeOne_scalar_example :
  @takeOne listedOrder (VInt 5) "X"
  = Return (zeroReflectValue, Some (ErrFromUnsupportedShape TInt)).
Proof.
  apply (@takeOne_unsupported_shape listedOrder (VInt 5) "X" TInt);
    [discriminate|reflexivity|reflexivity].
Defined.

(** ** Contracts of extraction and injection *)

Lemma fieldDecl_setField f x (fs : list (string * bool * rtype * value)) :
  fieldDecl <$> setField f x fs = fieldDecl <$> fs.
Proof.
  unfold setField. rewrite <- list_fmap_compose. apply list_fmap_ext.
  intros i d _. simpl. by case_bool_decide.
Qed.

Lemma find_setField_ne (fs : list (string * bool * rtype * value)) f g x :
  g ≠ f →
  find (λ d, bool_decide (d.1.1.1 = g)) (setField f x fs)
  = find (λ d, bool_decide (d.1.1.1 = g)) fs.
Proof.
  intros Hne. induction fs as [|d fs IH]; [done|]. simpl.
  destruct (bool_decide (d.1.1.1 = f)) eqn:Ef; simpl.
  - apply bool_decide_eq_true in Ef.
    rewrite !bool_decide_eq_false_2 by congruence. apply IH.
  - destruct (bool_decide (d.1.1.1 = g)); [done|]. apply IH.
Qed.

Lemma find_fieldDecl (fs : list (string * bool * rtype * value)) f :
  find (λ d : string * bool * rtype, bool_decide (d.1.1 = f)) (fieldDecl <$> fs)
  = fieldDecl <$> find (λ d, bool_decide (d.1.1.1 = f)) fs.
Proof.
  induction fs as [|d fs IH]; [done|]. rewrite fmap_cons. simpl.
  unfold fieldDecl at 1. by destruct (bool_decide (d.1.1.1 = f)).
Qed.

Section SlotFacts.

Context `{GoRuntime}.

(** [takeOne] on a map, on a struct and on a pointer to a struct, and
    [assignOne] on the same three, as equations. *)
Lemma takeOne_map k e entries from :
  from ≠ "" →
  takeOne (VMap k e entries) from
  = if AssignableTo strType k then
      match entries ≫= (.!! from) with
      | Some c => Return (c, None)
      | None => Return (VNil, Some (ErrFromMapKeyNotFound from (TMap k e)))
      end
    else Return (VNil, Some (ErrFromMapKeyNotString (TMap k e))).
Proof.
  intros Hf. unfold takeOne, checkAndExtractFromMapKey, takeOne_return.
  destruct (decide (len from = 0)) as [?%len_zero|_]; [done|]. simpl.
  destruct (AssignableTo strType k); simpl; [|done].
  by destruct (entries ≫= (.!! from)).
Qed.

Lemma takeOne_struct n fs from :
  from ≠ "" →
  takeOne (VStruct n fs) from
  = match find (λ d, bool_decide (d.1.1.1 = from)) fs with
    | None =>
        Return (VNil, Some (ErrFromFieldNotFound from (TStruct n (fieldDecl <$> fs))))
    | Some (_, exported, _, c) =>
        if exported then Return (c, None)
        else Return (VNil, Some (ErrFromFieldNotExported from
                                   (TStruct n (fieldDecl <$> fs))))
    end.
Proof.
  intros Hf. unfold takeOne, checkAndExtractFromField, takeOne_return.
  destruct (decide (len from = 0)) as [?%len_zero|_]; [done|]. simpl.
  destruct (find _ fs) as [[[[fn ex] ft] c]|]; simpl; [|done].
  by destruct ex.
Qed.

Lemma takeOne_struct_pointer sn decls n fs from :
  from ≠ "" →
  takeOne (VPtr (TStruct sn decls) (Some (VStruct n fs))) from
  = match find (λ d, bool_decide (d.1.1.1 = from)) fs with
    | None =>
        Return (VNil, Some (ErrFromFieldNotFound from (TStruct sn decls)))
    | Some (_, exported, _, c) =>
        if exported then Return (c, None)
        else Return (VNil, Some (ErrFromFieldNotExported from (TStruct sn decls)))
    end.
Proof.
  intros Hf. unfold takeOne, checkAndExtractFromField, takeOne_return.
  destruct (decide (len from = 0)) as [?%len_zero|_]; [done|]. simpl.
  destruct (find _ fs) as [[[[fn ex] ft] c]|]; simpl; [|done].
  by destruct ex.
Qed.

Lemma assignOne_struct n decls n' fs x to :
  to ≠ "" →
  assignOne (TStruct n decls) (VStruct n' fs) x to
  = match find (λ d, bool_decide (d.1.1.1 = to)) fs with
    | None =>
        Return (VStruct n' fs, Some (ErrToFieldNotFound to (TStruct n decls)))
    | Some (_, exported, ft, _) =>
        if exported then
          match TypeOf x with
          | None => Panic
          | Some tx =>
              if AssignableTo tx ft
              then Return (VStruct n' (setField to x fs), None)
              else Return (VStruct n' fs, Some (ErrToFieldMismatch to tx ft))
          end
        else Return (VStruct n' fs, Some (ErrToFieldNotExported to (TStruct n decls)))
    end.
Proof.
  intros Hf. unfold assignOne, checkAndExtractToField, ValueOf, ValueOfVar.
  destruct (decide (len to = 0)) as [?%len_zero|_]; [done|]. simpl.
  destruct (find _ fs) as [[[[fn ex] ft] c]|]; simpl; [|done].
  destruct ex; simpl; [|done].
  destruct (TypeOf x) as [tx|]; simpl; [|done].
  by destruct (AssignableTo tx ft).
Qed.

Lemma assignOne_struct_pointer n decls e n' fs x to :
  to ≠ "" →
  assignOne (TPtr (TStruct n decls)) (VPtr e (Some (VStruct n' fs))) x to
  = match find (λ d, bool_decide (d.1.1.1 = to)) fs with
    | None =>
        Return (VPtr e (Some (VStruct n' fs)),
                Some (ErrToFieldNotFound to (TStruct n decls)))
    | Some (_, exported, ft, _) =>
        if exported then
          match TypeOf x with
          | None => Panic
          | Some tx =>
              if AssignableTo tx ft
              then Return (VPtr e (Some (VStruct n' (setField to x fs))), None)
              else Return (VPtr e (Some (VStruct n' fs)),
                           Some (ErrToFieldMismatch to tx ft))
          end
        else Return (VPtr e (Some (VStruct n' fs)),
                     Some (ErrToFieldNotExported to (TStruct n decls)))
    end.
Proof.
  intros Hf. unfold assignOne, checkAndExtractToField, ValueOf, ValueOfVar.
  destruct (decide (len to = 0)) as [?%len_zero|_]; [done|]. simpl.
  destruct (find _ fs) as [[[[fn ex] ft] c]|]; simpl; [|done].
  destruct ex; simpl; [|done].
  destruct (TypeOf x) as [tx|]; simpl; [|done].
  by destruct (AssignableTo tx ft).
Qed.

Lemma assignOne_map k e k' e' entries x to :
  to ≠ "" →
  assignOne (TMap k e) (VMap k' e' entries) x to
  = if AssignableTo strType k then
      match TypeOf x with
      | None => Panic
      | Some tx =>
          if AssignableTo tx e then
            match entries with
            | None => Panic
            | Some m => Return (VMap k' e' (Some (<[to := x]> m)), None)
            end
          else Return (VMap k' e' entries, Some (ErrToMapValueMismatch to tx e))
      end
    else Return (VMap k' e' entries, Some (ErrToMapKeyNotString (TMap k e))).
Proof.
  intros Hf. unfold assignOne, checkAndExtractToMapKey, ValueOf, ValueOfVar.
  destruct (decide (len to = 0)) as [?%len_zero|_]; [done|]. simpl.
  destruct (AssignableTo strType k); simpl; [|done].
  destruct (TypeOf x) as [tx|]; simpl; [|done].
  destruct (AssignableTo tx e); simpl; [|done].
  by destruct entries.
Qed.

(** A successful [assignOne] with a field name writes the slot of that name
    and no other. *)
Lemma assignOne_slot T dest x to dest' :
  to ≠ "" → instanceOf T dest →
  assignOne T dest x to = Return (dest', None) →
  instanceOf T dest'
  ∧ takeOne dest' to = Return (x, None)
  ∧ ∀ f, f ≠ "" → f ≠ to → takeOne dest' f = takeOne dest f.
Proof.
  intros Hto Hinst.
  destruct T as [| | | |[| | | | | | |sn decls]| |k e|n decls]; try done;
    destruct dest as [| | | | |e' [[| | | | | | |n' fs]|]|k' e' [m|]|n' fs]; try done.
  - (* pointer to struct *)
    destruct Hinst as (-> & -> & <-).
    rewrite assignOne_struct_pointer by done.
    destruct (find _ fs) as [[[[fn ex] ft] c]|] eqn:Hfind; [|done].
    destruct ex; [|done]. destruct (TypeOf x) as [tx|]; [|done].
    destruct (AssignableTo tx ft); [|done]. intros [= <-].
    split; [by rewrite <- (fieldDecl_setField to x fs)|]. split.
    + rewrite takeOne_struct_pointer by done.
      by rewrite (find_setField _ _ _ _ Hfind).
    + intros f Hf Hne. rewrite !takeOne_struct_pointer by done.
      by rewrite find_setField_ne.
  - (* map *)
    destruct Hinst as [-> ->]. rewrite assignOne_map by done.
    destruct (AssignableTo strType k) eqn:Hk; [|done].
    destruct (TypeOf x) as [tx|]; [|done].
    destruct (AssignableTo tx e); [|done]. intros [= <-].
    split; [done|]. split.
    + rewrite takeOne_map by done. rewrite Hk. simpl. by rewrite lookup_insert_eq.
    + intros f Hf Hne. rewrite !takeOne_map by done. simpl.
      by rewrite lookup_insert_ne.
  - (* struct *)
    destruct Hinst as (-> & <-).
    rewrite assignOne_struct by done.
    destruct (find _ fs) as [[[[fn ex] ft] c]|] eqn:Hfind; [|done].
    destruct ex; [|done]. destruct (TypeOf x) as [tx|]; [|done].
    destruct (AssignableTo tx ft); [|done]. intros [= <-].
    split; [by rewrite <- (fieldDecl_setField to x fs)|]. split.
    + rewrite takeOne_struct by done.
      by rewrite (find_setField _ _ _ _ Hfind).
    + intros f Hf Hne. rewrite !takeOne_struct by done.
      by rewrite find_setField_ne, fieldDecl_setField.
Qed.
(** X3.  Static resolution of a field agrees with extraction at run time.  For
    a struct, or a non-nil pointer to a struct, of type [T] and a field
    name [f]: when [checkAndExtractFieldType f T] resolves to a type, this
    is the declared type of the slot and [takeOne] succeeds; when it fails,
    [takeOne] returns an error. *)
Theorem static_resolution_agrees_with_takeOne T v f :
  f ≠ "" → instanceOf T v → kind T ≠ KMap →
  match checkAndExtractFieldType f T with
  | (Some ft, None) =>
      slotType v f = Some ft ∧ ∃ x, takeOne v f = Return (x, None)
  | _ => ∃ e, takeOne v f = Return (VNil, Some e)
  end.
Proof.
  intros Hf Hinst Hkind. unfold checkAndExtractFieldType.
  destruct (decide (len f = 0)) as [?%len_zero|_]; [done|].
  destruct T as [| | | |[| | | | | | |sn decls]| |k e|n decls]; try done;
    destruct v as [| | | | |e' [[| | | | | | |n' fs]|]|k' e' [m|]|n' fs]; try done.
  - destruct Hinst as (-> & -> & <-). simpl.
    rewrite takeOne_struct_pointer by done. rewrite find_fieldDecl.
    destruct (find _ fs) as [[[[fn ex] ft] c]|]; simpl; [|eauto].
    destruct ex; simpl; eauto.
  - destruct Hinst as (-> & <-). simpl.
    rewrite takeOne_struct by done. rewrite find_fieldDecl.
    destruct (find _ fs) as [[[[fn ex] ft] c]|]; simpl; [|eauto].
    destruct ex; simpl; eauto.
Qed.
(** X4.  [takeOne] on a map with a key name: the not-a-string-key error when
    string is not assignable to the key type; else the entry under the
    key, or the key-not-found error when there is none, also in a nil map.
    It does not panic. *)
Theorem takeOne_map_entry k e entries from :
  from ≠ "" →
  (AssignableTo strType k = false →
   takeOne (VMap k e entries) from
   = Return (VNil, Some (ErrFromMapKeyNotString (TMap k e))))
  ∧ (AssignableTo strType k = true →
     ∀ c, entries ≫= (.!! from) = Some c →
          takeOne (VMap k e entries) from = Return (c, None))
  ∧ (AssignableTo strType k = true →
     entries ≫= (.!! from) = None →
     takeOne (VMap k e entries) from
     = Return (VNil, Some (ErrFromMapKeyNotFound from (TMap k e)))).
Proof.
  intros Hf. rewrite takeOne_map by done. repeat split.
  - by intros ->.
  - by intros -> c ->.
  - by intros -> ->.
Qed.

(** X5.  [takeOne] on a struct with a field name: the content of the field when
    it is exported, the not-exported error when it is not, the
    field-not-found error when the struct has no such field. *)
Theorem takeOne_struct_field n fs from :
  from ≠ "" →
  (∀ d, find (λ d, bool_decide (d.1.1.1 = from)) fs = Some d → d.1.1.2 = true →
        takeOne (VStruct n fs) from = Return (d.2, None))
  ∧ (∀ d, find (λ d, bool_decide (d.1.1.1 = from)) fs = Some d → d.1.1.2 = false →
          takeOne (VStruct n fs) from
          = Return (VNil, Some (ErrFromFieldNotExported from
                                  (TStruct n (fieldDecl <$> fs)))))
  ∧ (find (λ d, bool_decide (d.1.1.1 = from)) fs = None →
     takeOne (VStruct n fs) from
     = Return (VNil, Some (ErrFromFieldNotFound from (TStruct n (fieldDecl <$> fs))))).
Proof.
  intros Hf. rewrite takeOne_struct by done. repeat split.
  - intros [[[fn ex] ft] c] -> Hex. simpl in Hex. by subst.
  - intros [[[fn ex] ft] c] -> Hex. simpl in Hex. by subst.
  - by intros ->.
Qed.

(** X6.  A non-nil pointer to a struct is written and read as the struct:
    [assignOne] through the pointer does what it does on the struct and
    returns the pointer to the result, and [takeOne] through the pointer
    succeeds with a value exactly when it does on the struct. *)
Theorem pointer_to_struct_transparent n decls e n' fs x f :
  f ≠ "" →
  assignOne (TPtr (TStruct n decls)) (VPtr e (Some (VStruct n' fs))) x f
  = ('(d, err) ← assignOne (TStruct n decls) (VStruct n' fs) x f;
     Return (VPtr e (Some d), err))
  ∧ (∀ y, takeOne (VPtr (TStruct n decls) (Some (VStruct n' fs))) f = Return (y, None)
          ↔ takeOne (VStruct n' fs) f = Return (y, None)).
Proof.
  intros Hf. split.
  - rewrite assignOne_struct_pointer, assignOne_struct by done.
    destruct (find _ fs) as [[[[fn ex] ft] c]|]; [|done].
    destruct ex; [|done]. destruct (TypeOf x) as [tx|]; [|done].
    by destruct (AssignableTo tx ft).
  - intros y. rewrite takeOne_struct_pointer, takeOne_struct by done.
    destruct (find _ fs) as [[[[fn ex] ft] c]|]; [|done]. by destruct ex.
Qed.

(** X7.  [assignOne] on a struct destination with a field name: the
    field-not-found and not-exported errors; a panic on a nil value for an
    exported field; else the mismatch error when the dynamic type of the
    value is not assignable to the type of the field, and the struct with
    the field set when it is. *)
Theorem assignOne_struct_field n decls n' fs x to :
  to ≠ "" →
  (find (λ d, bool_decide (d.1.1.1 = to)) fs = None →
   assignOne (TStruct n decls) (VStruct n' fs) x to
   = Return (VStruct n' fs, Some (ErrToFieldNotFound to (TStruct n decls))))
  ∧ (∀ d, find (λ d, bool_decide (d.1.1.1 = to)) fs = Some d →
       (d.1.1.2 = false →
        assignOne (TStruct n decls) (VStruct n' fs) x to
        = Return (VStruct n' fs, Some (ErrToFieldNotExported to (TStruct n decls))))
       ∧ (d.1.1.2 = true → TypeOf x = None →
          assignOne (TStruct n decls) (VStruct n' fs) x to = Panic)
       ∧ (∀ tx, d.1.1.2 = true → TypeOf x = Some tx →
            assignOne (TStruct n decls) (VStruct n' fs) x to
            = if AssignableTo tx d.1.2
              then Return (VStruct n' (setField to x fs), None)
              else Return (VStruct n' fs, Some (ErrToFieldMismatch to tx d.1.2)))).
Proof.
  intros Hf. rewrite assignOne_struct by done. split.
  - by intros ->.
  - intros [[[fn ex] ft] c] ->. simpl. repeat split.
    + by intros ->.
    + by intros -> ->.
    + by intros tx -> ->.
Qed.

(** X8.  [assignOne] on a map destination with a key: the key-type error when
    string is not assignable to the key type of [T]; a panic on a nil
    value; the value-mismatch error when the type of the value is not
    assignable to the element type; else the entry is set, and a nil map
    makes the call panic. *)
Theorem assignOne_map_entry k e k' e' entries x to :
  to ≠ "" →
  (AssignableTo strType k = false →
   assignOne (TMap k e) (VMap k' e' entries) x to
   = Return (VMap k' e' entries, Some (ErrToMapKeyNotString (TMap k e))))
  ∧ (AssignableTo strType k = true → TypeOf x = None →
     assignOne (TMap k e) (VMap k' e' entries) x to = Panic)
  ∧ (∀ tx, AssignableTo strType k = true → TypeOf x = Some tx →
       AssignableTo tx e = false →
       assignOne (TMap k e) (VMap k' e' entries) x to
       = Return (VMap k' e' entries, Some (ErrToMapValueMismatch to tx e)))
  ∧ (∀ tx, AssignableTo strType k = true → TypeOf x = Some tx →
       AssignableTo tx e = true →
       assignOne (TMap k e) (VMap k' e' entries) x to
       = match entries with
         | None => Panic
         | Some m => Return (VMap k' e' (Some (<[to := x]> m)), None)
         end).
Proof.
  intros Hf. rewrite assignOne_map by done. repeat split.
  - by intros ->.
  - by intros -> ->.
  - by intros tx -> -> ->.
  - by intros tx -> -> ->.
Qed.

(** X9.  A successful [assignOne] with a field name on a struct, a non-nil
    pointer to a struct or a made map writes that slot and no other: the
    result is again such a destination, [takeOne] reads the value back
    from the slot, and every other slot reads as before. *)
Theorem assignOne_writes_one_slot T dest x to dest' :
  to ≠ "" → instanceOf T dest →
  assignOne T dest x to = Return (dest', None) →
  instanceOf T dest'
  ∧ takeOne dest' to = Return (x, None)
  ∧ ∀ f, f ≠ "" → f ≠ to → takeOne dest' f = takeOne dest f.
Proof. intros Hto Hinst Hassign. by apply assignOne_slot. Qed.

End SlotFacts.

(** ** Conversion of a keyed mapping, and the two halves of an edge *)

Section PipelineFacts.

Context `{GoRuntime} {stream : Type} `{Collaborators stream}.

Lemma convertTo_assign_slots T entries t t' :
  NoDup entries.*1 → "" ∉ entries.*1 → Forall singleValue entries →
  instanceOf T t →
  convertTo_assign T t entries = Return (t', None) →
  instanceOf T t'
  ∧ (∀ k v, (k, [v]) ∈ entries → takeOne t' k = Return (v, None))
  ∧ (∀ f, f ≠ "" → f ∉ entries.*1 → takeOne t' f = takeOne t f).
Proof.
  intros Hnd Hempty Hall. revert t.
  induction Hall as [|[fieldName values] entries [v Hv] _ IH]; intros t Hinst; simpl.
  - intros [= <-]. split; [done|]. split; [|done].
    intros k v Hin. by apply elem_of_nil in Hin.
  - simpl in Hv. subst values. simpl.
    rewrite fmap_cons in Hnd, Hempty. simpl in *.
    apply NoDup_cons in Hnd as [Hfresh Hnd].
    apply not_elem_of_cons in Hempty as [Hname Hempty].
    destruct (assignOne T t v fieldName) as [[t1 [e|]]|] eqn:Hassign; simpl; try done.
    intros Hrest.
    destruct (assignOne_slot T t v fieldName t1) as (Hinst1 & Hget & Hframe);
      [congruence|done|done|].
    destruct (IH Hnd Hempty t1 Hinst1 Hrest) as (Hinst' & Hgets & Hframe').
    split; [done|]. split.
    + intros k w Hin. apply elem_of_cons in Hin as [[= -> ->]|Hin].
      * rewrite Hframe' by congruence. done.
      * by apply Hgets.
    + intros f Hf Hnotin. apply not_elem_of_cons in Hnotin as [Hne Hnotin].
      rewrite Hframe' by done. by apply Hframe.
Qed.

Lemma convertTo_entries_keys (m : gmap string value) :
  (go_range (map_to_list (convertTo_group m))).*1 ≡ₚ (map_to_list m).*1.
Proof.
  rewrite go_range_perm, convertTo_group_singletons, map_to_list_fmap.
  rewrite <- list_fmap_compose. done.
Qed.

Lemma convertTo_fields T (m : gmap string value) t :
  m !! "" = None → instanceOf T (NewInstance T) →
  convertTo T m = Return (t, None) →
  instanceOf T t
  ∧ (∀ k v, m !! k = Some v → takeOne t k = Return (v, None))
  ∧ (∀ f, f ≠ "" → m !! f = None → takeOne t f = takeOne (NewInstance T) f).
Proof.
  intros Hm Hinst. unfold convertTo. rewrite Hm. intros Hassign.
  pose proof (convertTo_entries_keys m) as Hkeys.
  destruct (convertTo_assign_slots T _ _ _
              ltac:(rewrite Hkeys; apply NoDup_fst_map_to_list)
              ltac:(rewrite Hkeys; intros ((k & v) & Hk & Hin%elem_of_map_to_list)%list_elem_of_fmap;
                    simpl in Hk; congruence)
              (convertTo_entries_single m) Hinst Hassign)
    as (Hinst' & Hgets & Hframe).
  split; [done|]. split.
  - intros k v Hk. apply Hgets. rewrite go_range_perm.
    apply elem_of_map_to_list. rewrite convertTo_group_singletons, lookup_fmap, Hk. done.
  - intros f Hf Hnone. apply Hframe; [done|]. rewrite Hkeys.
    intros ((k & v) & Hk & Hin%elem_of_map_to_list)%list_elem_of_fmap.
    simpl in Hk. congruence.
Qed.

Lemma fieldMap_loop_result ms input (r0 r : gmap string value) :
  NoDup (to <$> ms) →
  fieldMap_loop ms input r0 = Return r →
  (∀ m, m ∈ ms → ∃ v, takeOne input (from m) = Return (v, None) ∧ r !! to m = Some v)
  ∧ (∀ k, k ∉ to <$> ms → r !! k = r0 !! k).
Proof.
  revert r0. induction ms as [|m ms IH]; intros r0 Hnd; simpl.
  - intros [= <-]. split; [|done]. intros m Hm. by apply elem_of_nil in Hm.
  - rewrite fmap_cons in Hnd. apply NoDup_cons in Hnd as [Hfresh Hnd].
    destruct (takeOne input (from m)) as [[v [e|]]|] eqn:Htake; simpl; try done.
    intros Hloop. destruct (IH _ Hnd Hloop) as [Hms Hother]. split.
    + intros m' Hin. apply elem_of_cons in Hin as [->|Hin]; [|by apply Hms].
      exists v. split; [done|]. by rewrite Hother, lookup_insert_eq.
    + intros k Hk. apply not_elem_of_cons in Hk as [Hne Hk].
      by rewrite Hother, lookup_insert_ne.
Qed.

(** X10.  When [convertTo] succeeds on a mapping without the empty field name,
    starting from an allocated new instance, every entry of the mapping is
    read back from the slot of its name in the result, whatever the order
    in which the entries were visited, and the slots the mapping does not
    name read as in the new instance. *)
Theorem convertTo_builds_destination T (m : gmap string value) t :
  m !! "" = None → instanceOf T (NewInstance T) →
  convertTo T m = Return (t, None) →
  instanceOf T t
  ∧ (∀ k v, m !! k = Some v → takeOne t k = Return (v, None))
  ∧ (∀ f, f ≠ "" → m !! f = None → takeOne t f = takeOne (NewInstance T) f).
Proof. intros Hm Hinst Hc. by apply convertTo_fields. Qed.

Lemma fieldMap_loop_total ms input (r0 : gmap string value) :
  (∀ m, m ∈ ms → ∃ v, takeOne input (from m) = Return (v, None)) →
  ∃ r, fieldMap_loop ms input r0 = Return r.
Proof.
  revert r0. induction ms as [|m ms IH]; intros r0 Hall; simpl; [eauto|].
  destruct (Hall m) as [v ->]; [by left|]. simpl. apply IH.
  intros m' Hin. apply Hall. by right.
Qed.

(** X11.  [fieldMap] never returns an error: it panics or succeeds.  It succeeds
    when every extraction does.  When the destination names of the
    descriptors are distinct, the map it returns holds, for every
    descriptor, under [to] the value extracted at [from], and nothing under
    any other name. *)
Theorem fieldMap_takes_each ms input :
  (fieldMap ms input = Panic ∨ ∃ r, fieldMap ms input = Return (r, None))
  ∧ ((∀ m, m ∈ ms → ∃ v, takeOne input (from m) = Return (v, None)) →
     ∃ r, fieldMap ms input = Return (r, None))
  ∧ (∀ r, NoDup (to <$> ms) → fieldMap ms input = Return (r, None) →
       (∀ m, m ∈ ms →
          ∃ v, takeOne input (from m) = Return (v, None) ∧ r !! to m = Some v)
       ∧ (∀ k, k ∉ to <$> ms → r !! k = None)).
Proof.
  unfold fieldMap. split; [|split].
  - destruct (fieldMap_loop ms input ∅); simpl; eauto.
  - intros Hall. destruct (fieldMap_loop_total ms input ∅ Hall) as [r ->]. simpl. eauto.
  - intros r Hnd Hmap.
    destruct (fieldMap_loop ms input ∅) as [r'|] eqn:Hloop; [|done].
    simpl in Hmap. simplify_eq.
    destruct (fieldMap_loop_result ms input ∅ r Hnd Hloop) as [Hms Hother].
    split; [done|]. intros k Hk. by rewrite Hother, lookup_empty.
Qed.

(** X12.  The two halves of an edge compose.  For descriptors with distinct,
    non-empty destination names, when [fieldMap] on the predecessor's
    output and then [convertTo] on its result succeed, the slot [to] of the
    successor's input holds what [takeOne] reads at [from] in the
    predecessor's output, for every descriptor, and the slots no descriptor
    names are those of the new instance. *)
Theorem field_mapping_moves_fields T ms input r t :
  NoDup (to <$> ms) → (∀ m, m ∈ ms → to m ≠ "") →
  instanceOf T (NewInstance T) →
  fieldMap ms input = Return (r, None) →
  convertTo T r = Return (t, None) →
  (∀ m, m ∈ ms →
     ∃ v, takeOne input (from m) = Return (v, None)
          ∧ takeOne t (to m) = Return (v, None))
  ∧ (∀ f, f ≠ "" → f ∉ to <$> ms → takeOne t f = takeOne (NewInstance T) f).
Proof.
  intros Hnd Hto Hinst Hmap Hconv. unfold fieldMap in Hmap.
  destruct (fieldMap_loop ms input ∅) as [r'|] eqn:Hloop; [|done].
  simpl in Hmap. simplify_eq.
  destruct (fieldMap_loop_result ms input ∅ r Hnd Hloop) as [Hms Hother].
  assert (r !! "" = None) as Hempty.
  { rewrite Hother, lookup_empty; [done|].
    intros (m & Hm & Hin)%list_elem_of_fmap. by destruct (Hto m Hin). }
  destruct (convertTo_fields T r t Hempty Hinst Hconv) as (_ & Hgets & Hframe).
  split.
  - intros m Hin. destruct (Hms m Hin) as (v & Htake & Hr). eauto.
  - intros f Hf Hnotin. apply Hframe; [done|]. by rewrite Hother, lookup_empty.
Qed.

(** X13.  A single descriptor with an empty [to]: when [fieldMap] succeeds, the
    value extracted at [from] is the successor's whole input, [convertTo]
    returning it asserted to [T]. *)
Theorem field_to_whole_input T m input r :
  to m = "" → fieldMap [m] input = Return (r, None) →
  ∃ v, takeOne input (from m) = Return (v, None)
       ∧ convertTo T r = (x ← typeAssert T v; Return (x, None)).
Proof.
  intros Hto. unfold fieldMap. simpl.
  destruct (takeOne input (from m)) as [[v [e|]]|]; simpl; try done.
  intros [= <-]. exists v. split; [done|].
  unfold convertTo. by rewrite Hto, lookup_insert_eq.
Qed.

End PipelineFacts.

(** ** Outcomes of the static validator *)

Lemma isFromAll_perm ms ms' : ms ≡ₚ ms' → isFromAll ms = isFromAll ms'.
Proof.
  intros Hp. destruct (isFromAll ms) eqn:E, (isFromAll ms') eqn:E'; try done.
  - apply isFromAll_spec in E as (m & Hin & Hm). rewrite Hp in Hin.
    assert (isFromAll ms' = true) by (apply isFromAll_spec; eauto). congruence.
  - apply isFromAll_spec in E' as (m & Hin & Hm). rewrite <- Hp in Hin.
    assert (isFromAll ms = true) by (apply isFromAll_spec; eauto). congruence.
Qed.

Lemma isToAll_perm ms ms' : ms ≡ₚ ms' → isToAll ms = isToAll ms'.
Proof.
  intros Hp. destruct (isToAll ms) eqn:E, (isToAll ms') eqn:E'; try done.
  - apply isToAll_spec in E as (m & Hin & Hm). rewrite Hp in Hin.
    assert (isToAll ms' = true) by (apply isToAll_spec; eauto). congruence.
  - apply isToAll_spec in E' as (m & Hin & Hm). rewrite <- Hp in Hin.
    assert (isToAll ms = true) by (apply isToAll_spec; eauto). congruence.
Qed.

Lemma legalMappings_perm pred succ ms ms' :
  ms ≡ₚ ms' → legalMappings pred succ ms = legalMappings pred succ ms'.
Proof.
  intros Hp. unfold legalMappings.
  by rewrite (isFromAll_perm _ _ Hp), (isToAll_perm _ _ Hp).
Qed.

Section OutcomeFacts.

Context `{GoRuntime} {stream : Type} `{Collaborators stream}.

Lemma validateFieldMapping_loop_spec pred succ ms σ
    (fc : gmap string (captured → handlerPair stream)) σ' fc' err :
  validateFieldMapping_loop pred succ ms σ fc = (σ', fc', err) →
  (err = None ↔ Forall (accepted pred succ) ms)
  ∧ (err = None →
     ∀ k, is_Some (fc' !! k)
          ↔ is_Some (fc !! k)
            ∨ ∃ m, m ∈ ms ∧ to m = k
                   ∧ pairing pred succ m = Some assignableTypeMay).
Proof.
  revert σ fc. induction ms as [|m ms IH]; intros σ fc; simpl.
  - intros [= <- <- <-]. split; [done|]. intros _ k. split; [auto|].
    intros [?|(m & Hm & _)]; [done|]. by apply elem_of_nil in Hm.
  - unfold accepted at 1, pairing at 1 2. rewrite Forall_cons.
    destruct (checkAndExtractFieldType (from m) pred) as [pft [e1|]] eqn:Hp; simpl.
    { intros [= <- <- <-]. split; [|done]. split; [done|].
      intros [[?|?] _]; by destruct pft. }
    destruct (checkAndExtractFieldType_resolved _ _ _ Hp) as [pt ->].
    destruct (checkAndExtractFieldType (to m) succ) as [sft [e2|]] eqn:Hs; simpl.
    { intros [= <- <- <-]. split; [|done]. split; [done|].
      intros [[?|?] _]; by destruct sft. }
    destruct (checkAndExtractFieldType_resolved _ _ _ Hs) as [st ->].
    destruct (checkAssignable (Some pt) (Some st)) eqn:Hc.
    + intros [= <- <- <-]. split; [|done]. split; [done|]. by intros [[?|?] _].
    + intros Hloop. destruct (IH _ _ Hloop) as [Hok Hdom]. split.
      * rewrite Hok. split; [auto|]. by intros [_ ?].
      * intros Hnone k. rewrite (Hdom Hnone k). split.
        -- intros [?|(m' & Hin & Hk & Hmay)]; [auto|].
           right. exists m'. split; [by right|done].
        -- intros [?|(m' & Hin & Hk & Hmay)]; [auto|].
           apply elem_of_cons in Hin as [->|Hin].
           ++ unfold pairing in Hmay. rewrite Hp, Hs, Hc in Hmay. done.
           ++ right. eauto.
    + intros Hloop. destruct (IH _ _ Hloop) as [Hok Hdom]. split.
      * rewrite Hok. split; [auto|]. by intros [_ ?].
      * intros Hnone k. rewrite (Hdom Hnone k), lookup_insert_is_Some. split.
        -- intros [[<-|[_ ?]]|(m' & Hin & Hk & Hmay)]; [|auto|].
           ++ right. exists m. split; [by left|]. split; [done|].
              unfold pairing. by rewrite Hp, Hs, Hc.
           ++ right. exists m'. split; [by right|done].
        -- intros [?|(m' & Hin & Hk & Hmay)].
           ++ destruct (decide (to m = k)); auto.
           ++ apply elem_of_cons in Hin as [->|Hin]; [auto|].
              right. eauto.
Qed.

Lemma validateFieldMapping_ok pred succ ms :
  (validateFieldMapping pred succ ms).2 = None
  ↔ legalMappings pred succ ms = true ∧ Forall (accepted pred succ) ms.
Proof.
  unfold validateFieldMapping, legalMappings.
  destruct (validateFieldMapping_loop pred succ ms (mkCaptured None None) ∅)
    as [[σ fc] err] eqn:Hloop.
  destruct (validateFieldMapping_loop_spec _ _ _ _ _ _ _ _ Hloop) as [Hok _].
  rewrite <- Hok.
  destruct (isFromAll ms), (isToAll ms), (validateStructOrMap succ),
    (validateStructOrMap pred); simpl; try (split; [done|by intros [? _]]);
    (destruct err as [e|]; simpl; [split; [done|by intros [_ ?]]|]);
    by case_decide.
Qed.

Lemma validateFieldMapping_handler pred succ ms :
  is_Some (validateFieldMapping pred succ ms).1
  ↔ (validateFieldMapping pred succ ms).2 = None
    ∧ Exists (λ m, pairing pred succ m = Some assignableTypeMay) ms.
Proof.
  unfold validateFieldMapping.
  destruct (validateFieldMapping_loop pred succ ms (mkCaptured None None) ∅)
    as [[σ fc] err] eqn:Hloop.
  destruct (validateFieldMapping_loop_spec _ _ _ _ _ _ _ _ Hloop) as [_ Hdom].
  destruct (isFromAll ms && isToAll ms);
    [split; [by intros []|by intros [? _]]|].
  destruct (negb (isToAll ms) && negb (validateStructOrMap succ));
    [split; [by intros []|by intros [? _]]|].
  destruct (negb (isFromAll ms) && negb (validateStructOrMap pred));
    [split; [by intros []|by intros [? _]]|].
  destruct err as [e|]; simpl; [split; [by intros []|by intros [? _]]|].
  specialize (Hdom eq_refl). rewrite Exists_exists.
  case_decide as Hsize; simpl.
  - apply map_size_empty_iff in Hsize. subst fc. split; [by intros []|].
    intros [_ (m & Hin & Hmay)].
    assert (is_Some ((∅ : gmap string (captured → handlerPair stream)) !! to m)) as [? Hl].
    { apply Hdom. right. eauto. }
    by rewrite lookup_empty in Hl.
  - split; [|eauto]. intros _. split; [done|].
    apply map_size_ne_0_lookup in Hsize as (k & Hk).
    apply Hdom in Hk as [[? Hl]|(m & Hin & _ & Hmay)]; [by rewrite lookup_empty in Hl|].
    eauto.
Qed.

Lemma validateFieldMapping_handler_shape pred succ ms h :
  validateFieldMapping pred succ ms = (Some h, None) →
  ∃ σ fc, map_Forall (λ _ c, c = fieldChecker) fc ∧ invoke h = checkAll σ fc.
Proof.
  unfold validateFieldMapping.
  destruct (_ && _); [done|]. destruct (_ && _); [done|]. destruct (_ && _); [done|].
  destruct (validateFieldMapping_loop _ _ _ _ _) as [[σ fc] [e|]] eqn:Hloop; [done|].
  case_decide; [done|]. intros [= <-]. exists σ, fc. split; [|done].
  eapply validateFieldMapping_loop_checkers; [|exact Hloop]. apply map_Forall_empty.
Qed.

Lemma checker_result σ a r err :
  checker σ a = Return (r, err) →
  (err = None ∧ r = a) ∨ (∃ tin st, err = Some (ErrRuntimeCheck tin st) ∧ r = VNil).
Proof.
  unfold checker. destruct (TypeOf a) as [ta|]; [|done].
  destruct (successorFieldType σ) as [st|]; [|done].
  destruct (AssignableTo ta st); simpl; intros [= <- <-]; eauto.
Qed.

Lemma checkFields_result σ (entries : list (string * (captured → handlerPair stream)))
    mValue r err :
  Forall (λ e, e.2 = fieldChecker) entries →
  checkFields σ entries mValue = Return (r, err) →
  (err = None ∧ r = VMap TString (TInterface []) mValue)
  ∨ (∃ tin st, err = Some (ErrRuntimeCheck tin st) ∧ r = VNil).
Proof.
  intros Hall. revert mValue.
  induction Hall as [|[k c] entries Hc _ IH]; intros mValue; simpl.
  - intros [= <- <-]. auto.
  - simpl in Hc. subst c. destruct mValue as [m|]; [|apply IH].
    destruct (m !! k) as [x|] eqn:Hk; [|apply IH]. simpl.
    destruct (checker σ x) as [[y [e|]]|] eqn:Hchk; simpl; [| |done].
    + intros [= <- <-]. right.
      destruct (checker_result _ _ _ _ Hchk) as [[? _]|(tin & st & [= ->] & ->)]; [done|].
      eauto.
    + destruct (checker_result _ _ _ _ Hchk) as [[_ ->]|(? & ? & ? & _)]; [|done].
      rewrite insert_id by done. apply IH.
Qed.

(** X14.  What the [invoke] of a handler pair returns.  When the handler
    pair is one [validateFieldMapping] returned and its [invoke] returns,
    the result is the keyed map it was given, with a nil error, or nil,
    with a runtime-check error: a guard that passes puts back the value it
    was given. *)
Theorem handler_invoke_passes_or_rejects pred succ ms h v r err :
  validateFieldMapping pred succ ms = (Some h, None) →
  invoke h v = Return (r, err) →
  (err = None ∧ r = v) ∨ (∃ tin st, err = Some (ErrRuntimeCheck tin st) ∧ r = VNil).
Proof.
  intros (σ & fc & Hfc & ->)%validateFieldMapping_handler_shape.
  unfold checkAll.
  destruct v as [| | | | | |kt et mValue|]; try done.
  destruct kt; try done. destruct et as [| | |ms0| | | |]; try done.
  destruct ms0; try done.
  intros Hchk. eapply checkFields_result; [|exact Hchk].
  rewrite go_range_perm. apply Forall_forall.
  intros [k c] Hin%elem_of_map_to_list. by apply Hfc in Hin.
Qed.
(** X15.  [validateFieldMapping] returns a nil error exactly when the mapping set
    passes the three legality tests and every descriptor resolves on both
    sides to a pairing that is classified always or conditionally
    assignable; it returns a handler pair exactly when, besides, some
    descriptor is classified conditionally assignable. *)
Theorem validateFieldMapping_outcome pred succ ms :
  ((validateFieldMapping pred succ ms).2 = None
   ↔ legalMappings pred succ ms = true ∧ Forall (accepted pred succ) ms)
  ∧ (is_Some (validateFieldMapping pred succ ms).1
     ↔ (validateFieldMapping pred succ ms).2 = None
       ∧ Exists (λ m, pairing pred succ m = Some assignableTypeMay) ms).
Proof. split; [apply validateFieldMapping_ok|apply validateFieldMapping_handler]. Qed.

(** X16.  Whether [validateFieldMapping] fails does not depend on the order of
    the descriptors; in particular a mapping set with a descriptor
    classified never assignable fails in every order. *)
Theorem validateFieldMapping_order_irrelevant pred succ ms ms' :
  ms ≡ₚ ms' →
  ((validateFieldMapping pred succ ms).2 = None
   ↔ (validateFieldMapping pred succ ms').2 = None)
  ∧ (∀ m, m ∈ ms → pairing pred succ m = Some assignableTypeMustNot →
       is_Some (validateFieldMapping pred succ ms').2).
Proof.
  intros Hp. split.
  - by rewrite !validateFieldMapping_ok, (legalMappings_perm _ _ _ _ Hp), Hp.
  - intros m Hin Hnever.
    destruct (validateFieldMapping pred succ ms').2 as [e|] eqn:He; [eauto|].
    apply validateFieldMapping_ok in He as [_ Hall].
    rewrite <- Hp in Hall. rewrite Forall_forall in Hall.
    destruct (Hall m Hin) as [Hm|Hm]; congruence.
Qed.
End OutcomeFacts.

(** ** The contracts on the example data *)

(** Field [B] of [P] resolves to [int], statically and in [exPValue]. *)
Lemma static_resolution_agrees_with_takeOne_witness :
  slotType exPValue "B" = Some TInt
  ∧ ∃ x, @takeOne listedOrder exPValue "B" = Return (x, None).
Proof.
  apply (@static_resolution_agrees_with_takeOne listedOrder exP exPValue "B");
    [discriminate|by split|discriminate].
Defined.

(** The entry [X] of [exHello]. *)
Lemma takeOne_map_entry_witness :
  @takeOne listedOrder exHello "X" = Return (VString "hello", None).
Proof.
  apply (@takeOne_map_entry listedOrder TString anyType
           (Some {[ "X" := VString "hello"; "Y" := VInt 5 ]}) "X");
    [discriminate|reflexivity|reflexivity].
Defined.

(** The field [A] of [exPValue]. *)
Lemma takeOne_struct_field_witness :
  @takeOne listedOrder exPValue "A" = Return (VString "a", None).
Proof.
  apply (proj1 (@takeOne_struct_field listedOrder "P"
                  [("A", true, anyType, VString "a"); ("B", true, TInt, VInt 7)] "A"
                  ltac:(discriminate))
           ("A", true, anyType, VString "a")); reflexivity.
Defined.

(** Setting the field [F] through a pointer to [exA_nil]. *)
Lemma pointer_to_struct_transparent_witness :
  @assignOne listedOrder (TPtr exA) (VPtr exA (Some exA_nil)) (VInt 3) "F"
  = Return (VPtr exA (Some exA_3), None).
Proof.
  apply (@pointer_to_struct_transparent listedOrder "A" [("F", true, anyType)] exA "A"
           [("F", true, anyType, VNil)] (VInt 3) "F").
  discriminate.
Defined.

(** A string for the field [X] of [exWhole]. *)
Lemma assignOne_struct_field_witness :
  @assignOne listedOrder exQ exWhole (VString "s") "X"
  = Return (VStruct "Q" [("X", true, TString, VString "s"); ("Y", true, TInt, VInt 0)],
            None).
Proof.
  apply (proj2 (proj2 (proj2 (@assignOne_struct_field listedOrder "Q"
                                [("X", true, TString); ("Y", true, TInt)] "Q"
                                [("X", true, TString, VString "whole");
                                 ("Y", true, TInt, VInt 0)]
                                (VString "s") "X" ltac:(discriminate))
                         ("X", true, TString, VString "whole") eq_refl))
           TString); reflexivity.
Defined.

(** A new entry [Z] in [exHello]. *)
Lemma assignOne_map_entry_witness :
  @assignOne listedOrder mapStringAny exHello (VInt 1) "Z"
  = Return (VMap TString anyType
              (Some (<["Z" := VInt 1]> {[ "X" := VString "hello"; "Y" := VInt 5 ]})),
            None).
Proof.
  apply (proj2 (proj2 (proj2 (@assignOne_map_entry listedOrder TString anyType
                                TString anyType
                                (Some {[ "X" := VString "hello"; "Y" := VInt 5 ]})
                                (VInt 1) "Z" ltac:(discriminate))))
           TInt); reflexivity.
Defined.

(** The field [X] of [exWhole] is written and read back. *)
Lemma assignOne_writes_one_slot_witness :
  @assignOne listedOrder exQ exWhole (VString "s") "X"
  = Return (VStruct "Q" [("X", true, TString, VString "s"); ("Y", true, TInt, VInt 0)],
            None)
  ∧ @takeOne listedOrder
      (VStruct "Q" [("X", true, TString, VString "s"); ("Y", true, TInt, VInt 0)]) "X"
    = Return (VString "s", None).
Proof.
  split; [reflexivity|].
  apply (@assignOne_writes_one_slot listedOrder exQ exWhole (VString "s") "X");
    [discriminate|by split|reflexivity].
Defined.

(** A [Q] built from the two entries [X] and [Y]. *)
Lemma convertTo_builds_destination_witness :
  ∃ t, @convertTo listedOrder listStream modelCollaborators exQ
         {[ "X" := VString "s"; "Y" := VInt 1 ]}
       = Return (t, None)
       ∧ @takeOne listedOrder t "Y" = Return (VInt 1, None).
Proof.
  eexists. split; [reflexivity|].
  assert (instanceOf exQ (@NewInstance listStream modelCollaborators exQ)) as Hnew
    by (by split).
  pose (m := ({[ "X" := VString "s"; "Y" := VInt 1 ]} : gmap string value)).
  assert (m !! "" = None) as Hm by reflexivity.
  apply (proj1 (proj2 (@convertTo_builds_destination listedOrder listStream
                         modelCollaborators exQ m _ Hm Hnew eq_refl))); reflexivity.
Defined.

(** [exMappings] moves [A] and [B] of [exPValue] into a [Q]. *)
Lemma field_mapping_moves_fields_witness :
  ∃ r t, @fieldMap listedOrder exMappings exPValue = Return (r, None)
         ∧ @convertTo listedOrder listStream modelCollaborators exQ r = Return (t, None)
         ∧ ∃ v, @takeOne listedOrder exPValue "A" = Return (v, None)
                ∧ @takeOne listedOrder t "X" = Return (v, None).
Proof.
  eexists _, _. split; [reflexivity|]. split; [reflexivity|].
  assert (NoDup (to <$> exMappings)) as Hnd.
  { apply NoDup_cons. split; [|apply NoDup_singleton].
    intros Hin%list_elem_of_singleton. discriminate. }
  assert (∀ m, m ∈ exMappings → to m ≠ "") as Hto.
  { intros m Hm. repeat (apply elem_of_cons in Hm as [->|Hm]; [discriminate|]).
    by apply elem_of_nil in Hm. }
  assert (instanceOf exQ (@NewInstance listStream modelCollaborators exQ)) as Hnew
    by (by split).
  apply (proj1 (@field_mapping_moves_fields listedOrder listStream modelCollaborators
                  exQ exMappings exPValue _ _ Hnd Hto Hnew
                  ltac:(reflexivity) ltac:(reflexivity)) (MapFields "A" "X")).
  by left.
Defined.

(** The field [A] of [exPValue] as a whole [string] input. *)
Lemma field_to_whole_input_witness :
  ∃ v, @takeOne listedOrder exPValue "A" = Return (v, None)
       ∧ @convertTo listedOrder listStream modelCollaborators TString
           {[ "" := VString "a" ]}
         = (x ← @typeAssert listedOrder TString v; Return (x, None)).
Proof.
  exact (@field_to_whole_input listedOrder listStream modelCollaborators TString
           (FromField "A") exPValue {[ "" := VString "a" ]} eq_refl eq_refl).
Defined.

(** The handler of the single conditional descriptor [A → X] on
    [exHello]. *)
Lemma handler_invoke_passes_or_rejects_witness :
  ∃ h, @validateFieldMapping listedOrder listStream modelCollaborators
         exP exQ [MapFields "A" "X"]
       = (Some h, None)
       ∧ invoke h exHello = Return (exHello, None)
       ∧ ((@None error = None ∧ exHello = exHello)
          ∨ ∃ tin st, @None error = Some (ErrRuntimeCheck tin st) ∧ exHello = VNil).
Proof.
  eexists. split; [reflexivity|]. split; [reflexivity|].
  exact (@handler_invoke_passes_or_rejects listedOrder listStream modelCollaborators
           exP exQ [MapFields "A" "X"] _ exHello exHello None eq_refl eq_refl).
Defined.

(** [exMappings] is accepted in both orders. *)
Lemma validateFieldMapping_order_irrelevant_witness :
  (@validateFieldMapping listedOrder listStream modelCollaborators
     exP exQ [MapFields "A" "X"; MapFields "B" "Y"]).2 = None
  ∧ (@validateFieldMapping listedOrder listStream modelCollaborators
       exP exQ [MapFields "B" "Y"; MapFields "A" "X"]).2 = None.
Proof.
  split; [reflexivity|].
  apply (proj1 (@validateFieldMapping_order_irrelevant listedOrder listStream
                  modelCollaborators exP exQ
                  [MapFields "A" "X"; MapFields "B" "Y"]
                  [MapFields "B" "Y"; MapFields "A" "X"]
                  (perm_swap _ _ []))).
  reflexivity.
Defined.

(** ** Workflow edge assembly *)

Import workflow.

Section AssemblyFacts.

Context `{GoRuntime} {G : Type} `{Graph G}.

(** The loop over the inputs fails when a descriptor still to come claims
    the whole input among several, or names a field already seen, or two
    descriptors still to come name the same field. *)
Lemma collectInputs_illegal toNode n rest (toSet : gmap string bool) f2m :
  (1 < n ∧ ∃ m, m ∈ rest ∧ to m = "")
  ∨ (∃ m, m ∈ rest ∧ is_Some (toSet !! to m))
  ∨ sameFieldTwice rest →
  ∃ f2m' e, collectInputs toNode n rest toSet f2m = (f2m', Some e)
            ∧ structural e = true ∧ errorNode END e = Some toNode.
Proof.
  revert toSet f2m. induction rest as [|input rest IH]; intros toSet f2m Hbad.
  - exfalso.
    destruct Hbad as [(_ & m & Hm & _)|[(m & Hm & _)|(i & j & a & b & _ & Ha & _)]].
    + by apply elem_of_nil in Hm.
    + by apply elem_of_nil in Hm.
    + by rewrite lookup_nil in Ha.
  - simpl.
    destruct (bool_decide (len (to input) = 0) && bool_decide (1 < n)) eqn:Hwhole.
    { by eexists _, _. }
    destruct (bool_decide (is_Some (toSet !! to input))) eqn:Hseen.
    { by eexists _, _. }
    apply bool_decide_eq_false in Hseen.
    apply IH.
    destruct Hbad as [(Hn & m & Hm & Hto)|[(m & Hm & Hto)
                     |(i & j & a & b & Hij & Ha & Hb & Hab)]].
    + apply elem_of_cons in Hm as [->|Hm].
      * apply len_zero in Hto. rewrite Hto in Hwhole.
        rewrite !bool_decide_eq_true_2 in Hwhole by done. done.
      * left. eauto.
    + apply elem_of_cons in Hm as [->|Hm]; [done|].
      right. left. exists m. split; [done|].
      rewrite lookup_insert_is_Some. destruct (decide (to input = to m)); auto.
    + destruct i as [|i], j as [|j]; simpl in *; simplify_eq.
      * right. left. exists b. split; [by eapply list_elem_of_lookup_2|].
        rewrite Hab, lookup_insert_eq. eauto.
      * right. left. exists a. split; [by eapply list_elem_of_lookup_2|].
        rewrite Hab, lookup_insert_eq. eauto.
      * right. right. exists i, j, a, b. repeat split; auto.
Qed.

(** No group of [fromNode2Mappings] is empty, so [mappings[0]] is there. *)
Lemma collectInputs_groups toNode n rest (toSet : gmap string bool)
    (f2m f2m' : gmap string (list Mapping)) :
  map_Forall (λ _ ms, ms ≠ []) f2m →
  collectInputs toNode n rest toSet f2m = (f2m', None) →
  map_Forall (λ _ ms, ms ≠ []) f2m'.
Proof.
  revert toSet f2m. induction rest as [|input rest IH]; intros toSet f2m Hne; simpl.
  - by intros [= <-].
  - destruct (_ && _); [done|]. case_bool_decide; [done|].
    apply IH. apply map_Forall_insert_2; [|done].
    by destruct (default [] (f2m !! fromNodeKey input)).
Qed.

Lemma addEdges_returns toNode (groups : list (string * list Mapping)) g :
  Forall (λ e, e.2 ≠ []) groups →
  ∃ g' err, addEdges toNode groups g = Return (g', err).
Proof.
  intros Hall. revert g.
  induction Hall as [|[fromNode ms] groups Hne _ IH]; intros g; simpl.
  - eauto.
  - destruct ms as [|first ms]; [done|]. simpl.
    destruct (if Mapping_empty first then _ else _) as [g' [e|]]; eauto.
Qed.

Lemma visitNode_returns node g : ∃ g' err, visitNode node g = Return (g', err).
Proof.
  unfold visitNode. case_decide; [eauto|].
  destruct (collectInputs _ _ _ _ _) as [f2m [e|]] eqn:Hc; [eauto|].
  apply addEdges_returns. rewrite go_range_perm.
  apply Forall_forall. intros [k ms] Hin%elem_of_map_to_list.
  by eapply (collectInputs_groups _ _ _ _ ∅ f2m (map_Forall_empty _) Hc).
Qed.

Lemma visitNodes_returns l g : ∃ g' err, visitNodes l g = Return (g', err).
Proof.
  revert g. induction l as [|[k node] l IH]; intros g; simpl; [eauto|].
  destruct (visitNode_returns node g) as (g' & [e|] & ->); simpl; eauto.
Qed.

Lemma visitNode_illegal node g :
  illegalInputs (inputs node) →
  ∃ e, visitNode node g = Return (g, Some e)
       ∧ structural e = true ∧ errorNode END e = Some (key node).
Proof.
  unfold visitNode. intros [Hnil|Hbad].
  - rewrite Hnil. simpl. eauto.
  - case_decide as Hlen.
    { eauto. }
    destruct (collectInputs_illegal (key node) (length (inputs node)) (inputs node) ∅ ∅)
      as (f2m & e & -> & He); [|eauto].
    destruct Hbad as [[Hn Hm]|Hdup]; auto.
Qed.

Lemma visitEnd_illegal end_ g :
  illegalInputs end_ →
  ∃ e, visitEnd end_ g = Return (g, Some e)
       ∧ structural e = true ∧ errorNode END e = Some END.
Proof.
  unfold visitEnd. intros [Hnil|Hbad].
  - rewrite Hnil. simpl. eauto.
  - case_decide as Hlen.
    { eauto. }
    destruct (collectInputs_illegal END (length end_) end_ ∅ ∅)
      as (f2m & e & -> & He); [|eauto].
    destruct Hbad as [[Hn Hm]|Hdup]; auto.
Qed.

Lemma visitNodes_app pre l g :
  visitNodes (pre ++ l) g
  = '(g', err) ← visitNodes pre g;
    match err with
    | Some e => Return (g', Some e)
    | None => visitNodes l g'
    end.
Proof.
  revert g. induction pre as [|[k node] pre IH]; intros g; simpl; [done|].
  destruct (visitNode node g) as [[g' [e|]]|]; simpl; auto.
Qed.

Lemma visitNodes_illegal l g k node :
  (k, node) ∈ l → illegalInputs (inputs node) →
  ∃ g' e, visitNodes l g = Return (g', Some e).
Proof.
  intros Hin Hbad. revert g. induction l as [|[k' node'] l IH]; intros g.
  - by apply elem_of_nil in Hin.
  - simpl. apply elem_of_cons in Hin as [[= <- <-]|Hin].
    + destruct (visitNode_illegal node g Hbad) as (e & -> & _). simpl. eauto.
    + destruct (visitNode_returns node' g) as (g' & [e|] & ->); simpl; eauto.
Qed.

End AssemblyFacts.

(** Field [y] of node [b] mapped from [nodeA] and from [nodeB]. *)
Lemma addEdgesWithMapping_duplicate_field_example :
  @addEdgesWithMapping listedOrder edgeLog edgeLogGraph exDuplicateField
  = Return ([], Some (ErrSameField "b" "y")).
Proof. reflexivity. Qed.

(** On a graph that refuses every edge: when the legal node [a] is visited
    first, the error returned is the one the graph gave for its edge. *)
Lemma addEdgesWithMapping_graph_error_example :
  @addEdgesWithMapping listedOrder unit refusingGraph exRefused
  = Return (tt, Some (ErrExternal "edge refused"))
  ∧ @addEdgesWithMapping reversedOrder unit refusingGraph exRefused
    = Return (tt, Some (ErrSameField "b" "y")).
Proof. split; reflexivity. Qed.

(** Of two nodes without input, the error names the one visited first. *)
Lemma addEdgesWithMapping_order_of_visit_example :
  @addEdgesWithMapping listedOrder edgeLog edgeLogGraph exTwoBareNodes
  = Return ([], Some (ErrNodeNoInput "a"))
  ∧ @addEdgesWithMapping reversedOrder edgeLog edgeLogGraph exTwoBareNodes
    = Return ([], Some (ErrNodeNoInput "b")).
Proof. split; reflexivity. Qed.

(** ** Workflow edge assembly: groups, plain edges, success *)

(** What the loop over the inputs adds to a group: the descriptors from
    that source, in their order. *)
Lemma collectInputs_groups_by_source toNode n rest (toSet : gmap string bool)
    (f2m f2m' : gmap string (list Mapping)) k :
  collectInputs toNode n rest toSet f2m = (f2m', None) →
  default [] (f2m' !! k)
  = default [] (f2m !! k) ++ filter (λ m, fromNodeKey m = k) rest.
Proof.
  revert toSet f2m. induction rest as [|input rest IH]; intros toSet f2m; simpl.
  - intros [= <-]. by rewrite app_nil_r.
  - destruct (_ && _); [done|]. case_bool_decide; [done|].
    intros Hc. rewrite (IH _ _ Hc). rewrite filter_cons.
    destruct (decide (fromNodeKey input = k)) as [<-|Hne].
    + rewrite lookup_insert_eq. simpl. by rewrite <- app_assoc.
    + by rewrite lookup_insert_ne.
Qed.

(** An error of the loop over the inputs has one of three causes. *)
Lemma collectInputs_error toNode n rest (toSet : gmap string bool) f2m f2m' e :
  collectInputs toNode n rest toSet f2m = (f2m', Some e) →
  (1 < n ∧ ∃ m, m ∈ rest ∧ to m = "")
  ∨ (∃ m, m ∈ rest ∧ is_Some (toSet !! to m))
  ∨ sameFieldTwice rest.
Proof.
  revert toSet f2m. induction rest as [|input rest IH]; intros toSet f2m; simpl; [done|].
  destruct (bool_decide (len (to input) = 0) && bool_decide (1 < n)) eqn:Hwhole.
  { intros _. apply andb_true_iff in Hwhole as [Hl%bool_decide_eq_true Hn%bool_decide_eq_true].
    left. split; [done|]. exists input. split; [by left|by apply len_zero]. }
  destruct (bool_decide (is_Some (toSet !! to input))) eqn:Hseen.
  { intros _. apply bool_decide_eq_true in Hseen. right. left.
    exists input. split; [by left|done]. }
  intros Hc. destruct (IH _ _ Hc) as [(Hn & m & Hm & Hto)|[(m & Hm & Hto)|Hdup]].
  - left. split; [done|]. exists m. split; [by right|done].
  - apply lookup_insert_is_Some in Hto as [Heq|[_ Hto]].
    + right. right. apply list_elem_of_lookup_1 in Hm as [j Hj].
      exists 0, (S j), input, m. repeat split; auto.
    + right. left. exists m. split; [by right|done].
  - right. right. destruct Hdup as (i & j & a & b & Hij & Ha & Hb & Hab).
    exists (S i), (S j), a, b. repeat split; auto.
Qed.

(** A descriptor with an empty [to] among several stops the loop. *)
Lemma collectInputs_rejects_whole toNode n rest (toSet : gmap string bool) f2m m :
  1 < n → m ∈ rest → to m = "" →
  ∃ f2m' e, collectInputs toNode n rest toSet f2m = (f2m', Some e).
Proof.
  intros Hn Hin Hto. revert toSet f2m.
  induction rest as [|input rest IH]; intros toSet f2m; simpl.
  - by apply elem_of_nil in Hin.
  - destruct (bool_decide (len (to input) = 0) && bool_decide (1 < n)) eqn:Hwhole.
    { eauto. }
    destruct (bool_decide (is_Some (toSet !! to input))); [eauto|].
    apply elem_of_cons in Hin as [->|Hin]; [|by apply IH].
    apply len_zero in Hto. rewrite Hto in Hwhole.
    by rewrite !bool_decide_eq_true_2 in Hwhole.
Qed.

(** A descriptor with an empty [to] that passes the loop is the only one. *)
Lemma collectInputs_whole_alone toNode inputs f2m m :
  collectInputs toNode (length inputs) inputs ∅ ∅ = (f2m, None) →
  m ∈ inputs → to m = "" → inputs = [m].
Proof.
  intros Hc Hin Hto.
  destruct (decide (1 < length inputs)) as [Hlen|Hlen].
  - destruct (collectInputs_rejects_whole toNode (length inputs) inputs ∅ ∅ m)
      as (? & ? & Hc'); [done..|]. congruence.
  - destruct inputs as [|a [|b inputs]]; simpl in *; [by apply elem_of_nil in Hin| |lia].
    apply list_elem_of_singleton in Hin. by subst.
Qed.

Lemma collectInputs_group_members toNode n inputs f2m k ms m :
  collectInputs toNode n inputs ∅ ∅ = (f2m, None) →
  f2m !! k = Some ms → m ∈ ms → m ∈ inputs ∧ fromNodeKey m = k.
Proof.
  intros Hc Hk Hm.
  pose proof (collectInputs_groups_by_source _ _ _ _ _ _ k Hc) as Hgroup.
  rewrite Hk, lookup_empty in Hgroup. simpl in Hgroup. rewrite Hgroup in Hm.
  by apply list_elem_of_filter in Hm as [? ?].
Qed.

(** X17.  The groups of [fromNode2Mappings].  When the loop over the inputs
    of a node (or of END) ends without error, the map holds under each
    source node key the descriptors from that source, in the order of the
    inputs, and it has no entry for a node that is the source of none: no
    group is empty, so [mappings[0]] is in range. *)
Theorem fromNode2Mappings_groups_by_source toNode n inputs f2m :
  collectInputs toNode n inputs ∅ ∅ = (f2m, None) →
  ∀ k, match f2m !! k with
       | Some ms => ms = filter (λ m, fromNodeKey m = k) inputs ∧ 0 < length ms
       | None => filter (λ m, fromNodeKey m = k) inputs = []
       end.
Proof.
  intros Hc k.
  pose proof (collectInputs_groups_by_source _ _ _ _ _ _ k Hc) as Hgroup.
  rewrite lookup_empty in Hgroup. simpl in Hgroup.
  destruct (f2m !! k) as [ms|] eqn:Hk; simpl in Hgroup; [|done].
  split; [done|].
  pose proof (collectInputs_groups _ _ _ _ ∅ f2m (map_Forall_empty _) Hc k ms Hk).
  destruct ms; [done|simpl; lia].
Qed.

(** X18.  The test [mappings[0].empty()] speaks for its group.  In a group of
    a loop that ended without error, either the first descriptor is empty
    and it is the only input of the node, so that the plain edge drops no
    descriptor, or no descriptor of the group is empty. *)
Theorem first_descriptor_speaks_for_group toNode inputs f2m k first rest :
  collectInputs toNode (length inputs) inputs ∅ ∅ = (f2m, None) →
  f2m !! k = Some (first :: rest) →
  (Mapping_empty first = true ∧ inputs = [first] ∧ rest = [])
  ∨ (Mapping_empty first = false
     ∧ Forall (λ m, Mapping_empty m = false) (first :: rest)).
Proof.
  intros Hc Hk.
  assert (∀ m, m ∈ first :: rest → Mapping_empty m = true → inputs = [m]) as Hwhole.
  { intros m Hm Hempty.
    destruct (collectInputs_group_members _ _ _ _ _ _ m Hc Hk Hm) as [Hin _].
    apply (collectInputs_whole_alone toNode inputs f2m m Hc Hin).
    apply andb_true_iff in Hempty as [_ Hto%bool_decide_eq_true].
    by apply len_zero. }
  destruct (Mapping_empty first) eqn:Hfirst.
  - left. split; [done|].
    pose proof (Hwhole first ltac:(left) Hfirst) as Hone. split; [done|].
    pose proof (collectInputs_groups_by_source _ _ _ _ _ _ k Hc) as Hgroup.
    rewrite Hk, lookup_empty, Hone in Hgroup. simpl in Hgroup.
    rewrite filter_cons, filter_nil in Hgroup.
    destruct (decide (fromNodeKey first = k)); by simplify_eq.
  - right. split; [done|]. apply Forall_forall. intros m Hm.
    destruct (Mapping_empty m) eqn:Hempty; [|done].
    pose proof (Hwhole m Hm Hempty) as Hone.
    destruct (collectInputs_group_members _ _ _ _ _ _ first Hc Hk ltac:(left)) as [Hin _].
    rewrite Hone in Hin. apply list_elem_of_singleton in Hin. congruence.
Qed.

Section GroupFacts.

Context `{GoRuntime} {G : Type} `{Graph G}.

Lemma addEdges_accepted toNode (groups : list (string * list Mapping)) g :
  acceptsEveryEdge → Forall (λ e, e.2 ≠ []) groups →
  ∃ g', addEdges toNode groups g = Return (g', None).
Proof.
  intros [Hplain Hmapped] Hall. revert g.
  induction Hall as [|[fromNode ms] groups Hne _ IH]; intros g; simpl.
  - eauto.
  - destruct ms as [|first ms]; [done|]. simpl.
    destruct (Mapping_empty first).
    + specialize (Hplain fromNode toNode g).
      destruct (AddEdge fromNode toNode g) as [g' err]. simpl in *. subst. apply IH.
    + specialize (Hmapped fromNode toNode (first :: ms) g).
      destruct (addEdgeWithMappings _ _ _ _) as [g' err]. simpl in *. subst. apply IH.
Qed.

Lemma visitNode_accepted node g :
  acceptsEveryEdge → ¬ illegalInputs (inputs node) →
  ∃ g', visitNode node g = Return (g', None).
Proof.
  intros Hacc Hlegal. unfold visitNode.
  case_decide as Hlen.
  { destruct Hlegal. left. by apply length_zero_iff_nil. }
  destruct (collectInputs _ _ _ _ _) as [f2m [e|]] eqn:Hc.
  - destruct Hlegal. right.
    apply collectInputs_error in Hc as [?|[(m & _ & [? Hl])|?]]; auto.
    by rewrite lookup_empty in Hl.
  - apply addEdges_accepted; [done|]. rewrite go_range_perm.
    apply Forall_forall. intros [k ms] Hin%elem_of_map_to_list.
    by eapply (collectInputs_groups _ _ _ _ ∅ f2m (map_Forall_empty _) Hc).
Qed.

Lemma visitEnd_accepted end_ g :
  acceptsEveryEdge → ¬ illegalInputs end_ →
  ∃ g', visitEnd end_ g = Return (g', None).
Proof.
  intros Hacc Hlegal. unfold visitEnd.
  case_decide as Hlen.
  { destruct Hlegal. left. by apply length_zero_iff_nil. }
  destruct (collectInputs _ _ _ _ _) as [f2m [e|]] eqn:Hc.
  - destruct Hlegal. right.
    apply collectInputs_error in Hc as [?|[(m & _ & [? Hl])|?]]; auto.
    by rewrite lookup_empty in Hl.
  - apply addEdges_accepted; [done|]. rewrite go_range_perm.
    apply Forall_forall. intros [k ms] Hin%elem_of_map_to_list.
    by eapply (collectInputs_groups _ _ _ _ ∅ f2m (map_Forall_empty _) Hc).
Qed.

Lemma visitNodes_accepted l g :
  acceptsEveryEdge → Forall (λ e, ¬ illegalInputs (inputs e.2)) l →
  ∃ g', visitNodes l g = Return (g', None).
Proof.
  intros Hacc Hall. revert g. induction Hall as [|[k node] l Hlegal _ IH]; intros g; simpl.
  - eauto.
  - destruct (visitNode_accepted node g Hacc Hlegal) as [g' ->]. simpl. apply IH.
Qed.

Lemma addEdgesWithMapping_accepted (wf : Workflow G) :
  acceptsEveryEdge →
  (∀ k node, nodes wf !! k = Some node → ¬ illegalInputs (inputs node)) →
  ¬ illegalInputs (end_ wf) →
  ∃ g, addEdgesWithMapping wf = Return (g, None).
Proof.
  intros Hacc Hnodes Hend. unfold addEdgesWithMapping.
  destruct (visitNodes_accepted (go_range (map_to_list (nodes wf))) (gg wf) Hacc) as [g ->].
  - rewrite go_range_perm. apply Forall_forall.
    intros [k node] Hin%elem_of_map_to_list. by eapply Hnodes.
  - simpl. by apply visitEnd_accepted.
Qed.

Lemma addEdgesWithMapping_success_legal (wf : Workflow G) g :
  addEdgesWithMapping wf = Return (g, None) →
  (∀ k node, nodes wf !! k = Some node → ¬ illegalInputs (inputs node))
  ∧ ¬ illegalInputs (end_ wf).
Proof.
  unfold addEdgesWithMapping. intros Hrun. split.
  - intros k node Hk Hbad.
    destruct (visitNodes_illegal (go_range (map_to_list (nodes wf))) (gg wf) k node)
      as (g' & e & Hv); [|done|].
    + rewrite go_range_perm. by apply elem_of_map_to_list.
    + by rewrite Hv in Hrun.
  - intros Hbad.
    destruct (visitNodes_returns (go_range (map_to_list (nodes wf))) (gg wf))
      as (g' & [e|] & Hv); rewrite Hv in Hrun; simpl in Hrun; [done|].
    destruct (visitEnd_illegal (end_ wf) g' Hbad) as (e & He & _).
    by rewrite He in Hrun.
Qed.

(** X19.  Success of [addEdgesWithMapping] and legal inputs.  When
    [addEdgesWithMapping] returns a nil error, every node and END has at
    least one incoming descriptor, no descriptor with an empty [to] among
    several and no destination field named twice.  On a graph that accepts
    every edge the converse holds: a workflow whose nodes and END all have
    such inputs is assembled with a nil error.  A descriptor is a
    [Mapping] here; a nil [*Mapping], on which [len(input.to)] panics, is
    none. *)
Theorem addEdgesWithMapping_succeeds_on_legal (wf : Workflow G) :
  (∀ g, addEdgesWithMapping wf = Return (g, None) →
     (∀ k node, nodes wf !! k = Some node → ¬ illegalInputs (inputs node))
     ∧ ¬ illegalInputs (end_ wf))
  ∧ (acceptsEveryEdge →
     (∀ k node, nodes wf !! k = Some node → ¬ illegalInputs (inputs node)) →
     ¬ illegalInputs (end_ wf) →
     ∃ g, addEdgesWithMapping wf = Return (g, None)).
Proof.
  split.
  - apply addEdgesWithMapping_success_legal.
  - apply addEdgesWithMapping_accepted.
Qed.

End GroupFacts.

(** The groups of the two inputs of [exLegalNode]. *)
Lemma fromNode2Mappings_groups_by_source_witness :
  ∃ f2m, collectInputs "b" 2 (inputs exLegalNode) ∅ ∅ = (f2m, None)
         ∧ f2m !! "nodeA" = Some [To "y" (NewMapping "nodeA")]
         ∧ f2m !! "nodeC" = None
         ∧ filter (λ m, fromNodeKey m = "nodeC") (inputs exLegalNode) = [].
Proof.
  eexists. split; [reflexivity|]. split; [reflexivity|]. split; [reflexivity|].
  exact (fromNode2Mappings_groups_by_source "b" 2 (inputs exLegalNode) _
           eq_refl "nodeC").
Defined.

(** The single whole-output input of END in [exLegal]. *)
Lemma first_descriptor_speaks_for_group_witness :
  (Mapping_empty (NewMapping "b") = true
   ∧ end_ exLegal = [NewMapping "b"] ∧ @nil Mapping = [])
  ∨ (Mapping_empty (NewMapping "b") = false
     ∧ Forall (λ m, Mapping_empty m = false) [NewMapping "b"]).
Proof.
  exact (first_descriptor_speaks_for_group "end" (end_ exLegal)
           {[ "b" := [NewMapping "b"] ]} "b" (NewMapping "b") []
           eq_refl eq_refl).
Defined.

(** [exLegal], whose node [b] and END have legal inputs, is assembled
    without error on the graph that accepts every edge. *)
Lemma addEdgesWithMapping_succeeds_on_legal_witness :
  @acceptsEveryEdge edgeLog edgeLogGraph
  ∧ ∃ g, @addEdgesWithMapping listedOrder edgeLog edgeLogGraph exLegal
         = Return (g, None).
Proof.
  assert (@acceptsEveryEdge edgeLog edgeLogGraph) as Hacc by (by split).
  split; [exact Hacc|].
  apply (proj2 (@addEdgesWithMapping_succeeds_on_legal
                  listedOrder edgeLog edgeLogGraph exLegal) Hacc).
  - intros k node Hk.
    change (({[ "b" := exLegalNode ]} : gmap string WorkflowNode) !! k = Some node)
      in Hk.
    apply lookup_singleton_Some in Hk as [<- <-].
    intros [Hnil|[[_ (m & Hm & Hto)]|(i & j & a & b & Hij & Ha & Hb & Hab)]].
    + discriminate.
    + repeat (apply elem_of_cons in Hm as [->|Hm]; [discriminate|]).
      by apply elem_of_nil in Hm.
    + destruct i as [|[|i]], j as [|[|j]]; simpl in *; simplify_eq.
  - intros [Hnil|[[Hlen _]|(i & j & a & b & Hij & Ha & Hb & Hab)]].
    + discriminate.
    + simpl in Hlen. lia.
    + destruct i as [|i], j as [|j]; simpl in *; simplify_eq.
Defined.

(** ** Workflow edge assembly: the error returned *)

(** Why the loop over the inputs stops with an error. *)
Lemma collectInputs_explains toNode n rest (toSet : gmap string bool) f2m f2m' e :
  collectInputs toNode n rest toSet f2m = (f2m', Some e) →
  (e = ErrWholeInputNotAlone toNode ∧ 1 < n ∧ ∃ m, m ∈ rest ∧ to m = "")
  ∨ (∃ f, e = ErrSameField toNode f
          ∧ ((∃ m, m ∈ rest ∧ to m = f ∧ is_Some (toSet !! f))
             ∨ sameField rest f)).
Proof.
  revert toSet f2m. induction rest as [|input rest IH]; intros toSet f2m; simpl; [done|].
  destruct (bool_decide (len (to input) = 0) && bool_decide (1 < n)) eqn:Hwhole.
  { intros [= _ <-].
    apply andb_true_iff in Hwhole as [Hl%bool_decide_eq_true Hn%bool_decide_eq_true].
    left. split; [done|]. split; [done|].
    exists input. split; [by left|by apply len_zero]. }
  destruct (bool_decide (is_Some (toSet !! to input))) eqn:Hseen.
  { intros [= _ <-]. apply bool_decide_eq_true in Hseen. right.
    exists (to input). split; [done|]. left. exists input. split; [by left|done]. }
  intros Hc.
  destruct (IH _ _ Hc) as [(-> & Hn & m & Hm & Hto)|(f & -> & [(m & Hm & Hto & Hf)|Hdup])].
  - left. split; [done|]. split; [done|]. exists m. split; [by right|done].
  - right. exists f. split; [done|].
    apply lookup_insert_is_Some in Hf as [Heq|[_ Hf]].
    + right. apply list_elem_of_lookup_1 in Hm as [j Hj].
      exists 0, (S j), input, m. repeat split; auto.
    + left. exists m. split; [by right|done].
  - right. exists f. split; [done|]. right.
    destruct Hdup as (i & j & a & b & Hij & Ha & Hb & Hab).
    exists (S i), (S j), a, b. repeat split; auto; tauto.
Qed.

(** An error of the loop over all the inputs of a node names the node and
    says what is wrong with them. *)
Lemma collectInputs_explains_node toNode inputs f2m e :
  collectInputs toNode (length inputs) inputs ∅ ∅ = (f2m, Some e) →
  (e = ErrWholeInputNotAlone toNode ∧ wholeInputNotAlone inputs)
  ∨ (∃ f, e = ErrSameField toNode f ∧ sameField inputs f).
Proof.
  intros [(-> & Hn & Hm)|(f & -> & [(m & _ & _ & Hf)|Hdup])]%collectInputs_explains.
  - left. by repeat split.
  - rewrite lookup_empty in Hf. by destruct Hf.
  - right. eauto.
Qed.

Lemma explains_illegal END toNode inputs e :
  explains toNode inputs e →
  structural e = true ∧ errorNode END e = Some toNode ∧ illegalInputs inputs.
Proof.
  unfold illegalInputs, sameFieldTwice, sameField.
  destruct e; simpl; try done; intros [-> Hwhy]; (split; [done|]); (split; [done|]).
  - by left.
  - right. by left.
  - right. right. destruct Hwhy as (i & j & a & b & Hij & Ha & Hb & <- & Hb').
    by exists i, j, a, b.
Qed.

Lemma explainsEnd_illegal END inputs e :
  explainsEnd END inputs e →
  structural e = true ∧ errorNode END e = Some END ∧ illegalInputs inputs.
Proof.
  unfold illegalInputs, sameFieldTwice, sameField.
  destruct e; simpl; try done.
  - intros [-> Hwhy]. split; [done|]. split; [done|]. right. by left.
  - intros [-> Hwhy]. split; [done|]. split; [done|]. right. right.
    destruct Hwhy as (i & j & a & b & Hij & Ha & Hb & <- & Hb').
    by exists i, j, a, b.
  - intros ->. split; [done|]. split; [done|]. by left.
Qed.

Section RejectionFacts.

Context `{GoRuntime} {G : Type} `{Graph G}.

(** The loop over the groups returns no error of its own. *)
Lemma addEdges_error toNode (groups : list (string * list Mapping)) g g' e :
  addEdges toNode groups g = Return (g', Some e) → graphError e.
Proof.
  revert g. induction groups as [|[fromNode ms] groups IH]; intros g; simpl; [done|].
  destruct ms as [|first ms]; simpl; [done|].
  destruct (Mapping_empty first).
  - destruct (AddEdge fromNode toNode g) as [g1 [e1|]] eqn:Hcall.
    + intros [= _ <-]. left. exists fromNode, toNode, g. by rewrite Hcall.
    + apply IH.
  - destruct (addEdgeWithMappings fromNode toNode (first :: ms) g)
      as [g1 [e1|]] eqn:Hcall.
    + intros [= _ <-]. right. exists fromNode, toNode, (first :: ms), g.
      by rewrite Hcall.
    + apply IH.
Qed.

Lemma acceptsEveryEdge_no_graphError e : acceptsEveryEdge → graphError e → False.
Proof.
  intros [Hplain Hmapped] [(a & b & g & He)|(a & b & ms & g & He)].
  - by rewrite Hplain in He.
  - by rewrite Hmapped in He.
Qed.

(** An error of the visit of a node is the structural error for the node,
    or an error of the graph. *)
Lemma visitNode_error node g g' e :
  visitNode node g = Return (g', Some e) →
  explains (key node) (inputs node) e ∨ graphError e.
Proof.
  unfold visitNode. case_decide as Hlen.
  { intros [= _ <-]. left. simpl. split; [done|]. by apply length_zero_iff_nil. }
  destruct (collectInputs _ _ _ _ _) as [f2m [e'|]] eqn:Hc.
  - intros [= _ <-]. left.
    apply collectInputs_explains_node in Hc as [[-> Hwhy]|(f & -> & Hwhy)]; by simpl.
  - intros Hedges. right. by eapply addEdges_error.
Qed.

Lemma visitEnd_error end_ g g' e :
  visitEnd end_ g = Return (g', Some e) →
  explainsEnd END end_ e ∨ graphError e.
Proof.
  unfold visitEnd. case_decide as Hlen.
  { intros [= _ <-]. left. simpl. by apply length_zero_iff_nil. }
  destruct (collectInputs _ _ _ _ _) as [f2m [e'|]] eqn:Hc.
  - intros [= _ <-]. left.
    apply collectInputs_explains_node in Hc as [[-> Hwhy]|(f & -> & Hwhy)]; by simpl.
  - intros Hedges. right. by eapply addEdges_error.
Qed.

Lemma visitNodes_error l g g' e :
  visitNodes l g = Return (g', Some e) →
  (∃ k node, (k, node) ∈ l ∧ explains (key node) (inputs node) e) ∨ graphError e.
Proof.
  revert g. induction l as [|[k node] l IH]; intros g; simpl; [done|].
  destruct (visitNode node g) as [[g1 [e1|]]|] eqn:Hnode; simpl; [| |done].
  - intros [= _ <-]. apply visitNode_error in Hnode as [Hwhy|Hgraph]; [|by right].
    left. exists k, node. split; [by left|done].
  - intros [(k' & node' & Hin & Hwhy)|Hgraph]%IH; [|by right].
    left. exists k', node'. split; [by right|done].
Qed.

(** A node with illegal inputs is refused before any call on the graph,
    with the error for it. *)
Lemma visitNode_illegal_explains node g :
  illegalInputs (inputs node) →
  ∃ e, visitNode node g = Return (g, Some e)
       ∧ explains (key node) (inputs node) e.
Proof.
  intros Hbad. destruct (visitNode_illegal node g Hbad) as (e & Hvisit & _).
  exists e. split; [done|]. revert Hvisit. unfold visitNode.
  case_decide as Hlen.
  { intros [= <-]. simpl. split; [done|]. by apply length_zero_iff_nil. }
  destruct (collectInputs _ _ _ _ _) as [f2m [e'|]] eqn:Hc.
  - intros [= <-].
    apply collectInputs_explains_node in Hc as [[-> Hwhy]|(f & -> & Hwhy)]; by simpl.
  - destruct Hbad as [Hnil|Hbad]; [by rewrite Hnil in Hlen|].
    destruct (collectInputs_illegal (key node) (length (inputs node)) (inputs node) ∅ ∅)
      as (f2m' & e' & Hc' & _); [|congruence].
    destruct Hbad as [[Hn Hm]|Hdup]; auto.
Qed.

Lemma visitEnd_illegal_explains end_ g :
  illegalInputs end_ →
  ∃ e, visitEnd end_ g = Return (g, Some e) ∧ explainsEnd END end_ e.
Proof.
  intros Hbad. destruct (visitEnd_illegal end_ g Hbad) as (e & Hvisit & _).
  exists e. split; [done|]. revert Hvisit. unfold visitEnd.
  case_decide as Hlen.
  { intros [= <-]. simpl. by apply length_zero_iff_nil. }
  destruct (collectInputs _ _ _ _ _) as [f2m [e'|]] eqn:Hc.
  - intros [= <-].
    apply collectInputs_explains_node in Hc as [[-> Hwhy]|(f & -> & Hwhy)]; by simpl.
  - destruct Hbad as [Hnil|Hbad]; [by rewrite Hnil in Hlen|].
    destruct (collectInputs_illegal END (length end_) end_ ∅ ∅)
      as (f2m' & e' & Hc' & _); [|congruence].
    destruct Hbad as [[Hn Hm]|Hdup]; auto.
Qed.

(** Every error of [addEdgesWithMapping] is a structural error for a node
    or for END, or an error of the graph. *)
Lemma addEdgesWithMapping_error (wf : Workflow G) g e :
  addEdgesWithMapping wf = Return (g, Some e) → blames wf e ∨ graphError e.
Proof.
  unfold addEdgesWithMapping.
  destruct (visitNodes _ _) as [[g1 [e1|]]|] eqn:Hnodes; simpl; [| |done].
  - intros [= _ <-].
    apply visitNodes_error in Hnodes as [(k & node & Hin & Hwhy)|Hgraph]; [|by right].
    left. left. exists k, node.
    rewrite go_range_perm in Hin. apply elem_of_map_to_list in Hin.
    split; [done|]. split; [|done]. by apply (explains_illegal END) in Hwhy as (_ & ? & _).
  - intros [Hwhy|Hgraph]%visitEnd_error; [|by right].
    left. right. split; [|done]. by apply explainsEnd_illegal in Hwhy as (_ & ? & _).
Qed.

Lemma addEdgesWithMapping_illegal (wf : Workflow G) :
  (∃ k node, nodes wf !! k = Some node ∧ illegalInputs (inputs node))
  ∨ illegalInputs (end_ wf) →
  ∃ g e, addEdgesWithMapping wf = Return (g, Some e).
Proof.
  unfold addEdgesWithMapping. intros [(k & node & Hk & Hbad)|Hbad].
  - destruct (visitNodes_illegal (go_range (map_to_list (nodes wf))) (gg wf) k node)
      as (g & e & ->); [|done|simpl; eauto].
    rewrite go_range_perm. by apply elem_of_map_to_list.
  - destruct (visitNodes_returns (go_range (map_to_list (nodes wf))) (gg wf))
      as (g & [e|] & ->); simpl; [eauto|].
    destruct (visitEnd_illegal (end_ wf) g Hbad) as (e & -> & _). eauto.
Qed.

Lemma blames_structural (wf : Workflow G) e : blames wf e → structural e = true.
Proof.
  intros [(k & node & _ & _ & Hwhy)|[_ Hwhy]].
  - by apply (explains_illegal END) in Hwhy as (? & _).
  - by apply explainsEnd_illegal in Hwhy as (? & _).
Qed.

(** C6.  [addEdgesWithMapping] returns an error whenever a node, or END,
    has two incoming descriptors with the same [to] (from whatever source
    nodes), or a descriptor with an empty [to] among several, or no
    incoming descriptor.  The error is a structural one, which names a node
    (or END) with such inputs and says which of the three is the case, if
    the graph returned no error for an edge before; else it is the error
    the graph returned.  So on a graph that accepts every edge it is the
    structural error.  The node it names is the first such node in the
    order of visit: a node with illegal inputs gets the error that names
    it when the nodes visited before it were assembled without error, and
    END gets its error when all the nodes were. *)
Theorem addEdgesWithMapping_rejects_illegal (wf : Workflow G) :
  ((∃ k node, nodes wf !! k = Some node ∧ illegalInputs (inputs node))
     ∨ illegalInputs (end_ wf) →
   ∃ g e, addEdgesWithMapping wf = Return (g, Some e)
          ∧ ((structural e = true ∧ blames wf e) ∨ graphError e))
  ∧ (acceptsEveryEdge →
     (∃ k node, nodes wf !! k = Some node ∧ illegalInputs (inputs node))
       ∨ illegalInputs (end_ wf) →
     ∃ g e, addEdgesWithMapping wf = Return (g, Some e)
            ∧ structural e = true ∧ blames wf e)
  ∧ (∀ pre k node post g,
       go_range (map_to_list (nodes wf)) = pre ++ (k, node) :: post →
       visitNodes pre (gg wf) = Return (g, None) →
       illegalInputs (inputs node) →
       ∃ e, addEdgesWithMapping wf = Return (g, Some e)
            ∧ structural e = true ∧ errorNode END e = Some (key node)
            ∧ explains (key node) (inputs node) e)
  ∧ (∀ g,
       visitNodes (go_range (map_to_list (nodes wf))) (gg wf) = Return (g, None) →
       illegalInputs (end_ wf) →
       ∃ e, addEdgesWithMapping wf = Return (g, Some e)
            ∧ structural e = true ∧ errorNode END e = Some END
            ∧ explainsEnd END (end_ wf) e).
Proof.
  split; [|split; [|split]].
  - intros Hbad. destruct (addEdgesWithMapping_illegal wf Hbad) as (g & e & Hrun).
    exists g, e. split; [done|].
    destruct (addEdgesWithMapping_error wf g e Hrun) as [Hwhy|Hgraph]; [|by right].
    left. split; [by eapply blames_structural|done].
  - intros Hacc Hbad. destruct (addEdgesWithMapping_illegal wf Hbad) as (g & e & Hrun).
    exists g, e. split; [done|].
    destruct (addEdgesWithMapping_error wf g e Hrun) as [Hwhy|Hgraph].
    + split; [by eapply blames_structural|done].
    + destruct (acceptsEveryEdge_no_graphError e Hacc Hgraph).
  - intros pre k node post g Hrange Hpre Hbad. unfold addEdgesWithMapping.
    rewrite Hrange, visitNodes_app, Hpre. simpl.
    destruct (visitNode_illegal_explains node g Hbad) as (e & -> & Hwhy). simpl.
    exists e. split; [done|].
    by destruct (explains_illegal END _ _ _ Hwhy) as (? & ? & _).
  - intros g Hnodes Hbad. unfold addEdgesWithMapping. rewrite Hnodes. simpl.
    destruct (visitEnd_illegal_explains (end_ wf) g Hbad) as (e & -> & Hwhy).
    exists e. split; [done|].
    by destruct (explainsEnd_illegal _ _ _ Hwhy) as (? & ? & _).
Qed.

End RejectionFacts.

(** C6 on [exDuplicateField], whose node [b] gets field [y] from [nodeA]
    and from [nodeB]: on the graph that accepts every edge, the error is
    the structural one, it names [b] and the field [y]. *)
Lemma addEdgesWithMapping_rejects_illegal_witness :
  @acceptsEveryEdge edgeLog edgeLogGraph
  ∧ (∃ g e, @addEdgesWithMapping listedOrder edgeLog edgeLogGraph exDuplicateField
            = Return (g, Some e)
            ∧ structural e = true ∧ @blames edgeLog edgeLogGraph exDuplicateField e)
  ∧ @addEdgesWithMapping listedOrder edgeLog edgeLogGraph exDuplicateField
    = Return ([], Some (ErrSameField "b" "y")).
Proof.
  assert (@acceptsEveryEdge edgeLog edgeLogGraph) as Hacc by (by split).
  split; [exact Hacc|]. split; [|reflexivity].
  apply (proj1 (proj2 (@addEdgesWithMapping_rejects_illegal
                         listedOrder edgeLog edgeLogGraph exDuplicateField)) Hacc).
  left.
  exists "b", (mkWorkflowNode "b" [To "y" (NewMapping "nodeA"); To "y" (NewMapping "nodeB")]).
  split; [reflexivity|]. right. right.
  exists 0, 1, (To "y" (NewMapping "nodeA")), (To "y" (NewMapping "nodeB")).
  repeat split. discriminate.
Defined.

(** ** The workflow builder *)

Import builder.

Section BuilderFacts.

Context `{GoRuntime} {G opt options runnable : Type} `{Graph G}
  `{Compiler G opt options runnable}.

(** Once [wf.err] is set, no call of the builder changes it, the graph or
    the registered nodes. *)
Lemma perform_keeps_error (b : Builder G) e (calls : list (call G)) :
  b_err b = Some e →
  b_err (foldl perform b calls) = Some e
  ∧ b_gg (foldl perform b calls) = b_gg b
  ∧ b_nodes (foldl perform b calls) = b_nodes b.
Proof.
  revert b. induction calls as [|c calls IH]; intros b Herr; simpl; [done|].
  assert (b_err (perform b c) = Some e ∧ b_gg (perform b c) = b_gg b
          ∧ b_nodes (perform b c) = b_nodes b) as (He & Hg & Hn).
  { destruct c; simpl; try done. unfold AddNode. by rewrite Herr. }
  destruct (IH _ He) as (-> & -> & ->). done.
Qed.

Lemma perform_registered (b : Builder G) c :
  registeredUnderOwnKey b → registeredUnderOwnKey (perform b c).
Proof.
  intros Hinv. destruct c as [add k0|n0 new|new]; simpl.
  - unfold AddNode. destruct (b_err b) as [e|].
    + intros k n Hk. simpl in *. destruct (Hinv k n Hk) as (node & Hn & Hkey).
      exists node. split; [|done]. by apply lookup_app_l_Some.
    + destruct (add (b_gg b)) as [g err]. intros k n. simpl.
      destruct (decide (k0 = k)) as [->|Hne].
      * rewrite lookup_insert_eq. intros [= <-].
        exists (mkWorkflowNode k []). split; [|done].
        by rewrite lookup_app_r, Nat.sub_diag.
      * rewrite lookup_insert_ne by done. intros Hk.
        destruct (Hinv k n Hk) as (node & Hn & Hkey).
        exists node. split; [|done]. by apply lookup_app_l_Some.
  - intros k n Hk. simpl in *. destruct (Hinv k n Hk) as (node & Hn & Hkey).
    destruct (decide (n0 = n)) as [->|Hne].
    + eexists. rewrite list_lookup_alter_eq, Hn. simpl. done.
    + exists node. by rewrite list_lookup_alter_ne.
  - done.
Qed.

Lemma foldl_perform_registered (b : Builder G) calls :
  registeredUnderOwnKey b → registeredUnderOwnKey (foldl perform b calls).
Proof.
  revert b. induction calls as [|c calls IH]; intros b Hinv; simpl; [done|].
  by apply IH, perform_registered.
Qed.

Lemma NewWorkflow_registered (g : G) : registeredUnderOwnKey (NewWorkflow g).
Proof. intros k n. simpl. by rewrite lookup_empty. Qed.

(** X20.  A failed [Add*Node] decides the compilation.  When the call an
    [Add*Node] makes on the graph returns an error, [Compile] returns that
    error whatever calls of the builder come between, and the graph is
    left as that call left it: no edge is added. *)
Theorem first_error_sticks (b : Builder G) add key e calls opts :
  b_err b = None → (add (b_gg b)).2 = Some e →
  Compile opts (foldl perform (AddNode add key b).2 calls)
  = Return ((add (b_gg b)).1, None, Some (ErrOf e)).
Proof.
  intros Hnone Hadd.
  assert (b_err (AddNode add key b).2 = Some e
          ∧ b_gg (AddNode add key b).2 = (add (b_gg b)).1) as [He Hg].
  { unfold AddNode. rewrite Hnone. destruct (add (b_gg b)) as [g err]. simpl in *. by subst. }
  destruct (perform_keeps_error _ e calls He) as (He' & Hg' & _).
  unfold Compile. by rewrite He', Hg', Hg.
Qed.

(** X21.  What a successful [Compile] shows.  When [Compile] returns a nil
    error, no [Add*Node] had failed, the options did not ask for
    [NodeTriggerMode(AnyPredecessor)], every registered node and END has
    legal inputs, and the runnable is the one the graph compiled, from the
    graph with the edges added, under the options extended with
    [WithNodeTriggerMode(AllPredecessor)]. *)
Theorem Compile_success_shows (b : Builder G) opts g r :
  Compile opts b = Return (g, r, None) →
  b_err b = None ∧ requestsAnyPredecessor opts = false
  ∧ addEdgesWithMapping (workflowOf b) = Return (g, None)
  ∧ (∀ k node, nodes (workflowOf b) !! k = Some node → ¬ illegalInputs (inputs node))
  ∧ ¬ illegalInputs (b_end b)
  ∧ gg_Compile (opts ++ [withAllPredecessor]) g = (r, None).
Proof.
  unfold Compile. destruct (b_err b) as [e|]; [done|].
  destruct (requestsAnyPredecessor opts); [done|].
  destruct (addEdgesWithMapping (workflowOf b)) as [[g' [e|]]|] eqn:Hedges; simpl; try done.
  destruct (gg_Compile _ g') as [r' [e|]] eqn:Hc; simpl; [done|]. intros [= <- <-].
  destruct (addEdgesWithMapping_success_legal _ _ Hedges) as [Hn He].
  repeat split; try done.
Qed.

(** X22.  Every node of the workflow sits under its own key.  After any
    sequence of [Add*Node], [AddInput] and [AddEnd] on a new workflow, a
    node found in [wf.nodes] under a key has that key as its [key], which
    is the name [addEdgesWithMapping] gives the edges into it; and every
    registered pointer refers to a node. *)
Theorem registered_node_has_its_key (g : G) calls k :
  match b_nodes (foldl perform (NewWorkflow g) calls) !! k with
  | Some _ =>
      ∃ node, nodes (workflowOf (foldl perform (NewWorkflow g) calls)) !! k = Some node
              ∧ key node = k
  | None => nodes (workflowOf (foldl perform (NewWorkflow g) calls)) !! k = None
  end.
Proof.
  pose proof (foldl_perform_registered _ calls (NewWorkflow_registered g)) as Hinv.
  unfold workflowOf. simpl. rewrite lookup_omap.
  destruct (b_nodes _ !! k) as [n|] eqn:Hk; [|done].
  destruct (Hinv k n Hk) as (node & Hn & Hkey). exists node. simpl. by rewrite Hn.
Qed.

(** X23.  [AddInput] through the pointer an [Add*Node] returned reaches the
    node registered under that key and no other.  After any sequence of
    calls on a new workflow, [AddInput] on the pointer registered under
    [k] appends the descriptors to the inputs of the node under [k] in
    [wf.nodes], and the other nodes are as before. *)
Theorem AddInput_reaches_its_node_only (g : G) calls k n new :
  b_nodes (foldl perform (NewWorkflow g) calls) !! k = Some n →
  nodes (workflowOf (AddInput n new (foldl perform (NewWorkflow g) calls)))
  = alter (λ node, mkWorkflowNode (key node) (inputs node ++ new)) k
      (nodes (workflowOf (foldl perform (NewWorkflow g) calls))).
Proof.
  pose proof (foldl_perform_registered _ calls (NewWorkflow_registered g)) as Hinv.
  set (b := foldl perform (NewWorkflow g) calls) in *. intros Hk.
  apply map_eq. intros k'. unfold workflowOf, AddInput. simpl.
  destruct (decide (k = k')) as [<-|Hne].
  - rewrite lookup_alter_eq, !lookup_omap, Hk. simpl.
    by rewrite list_lookup_alter_eq.
  - rewrite lookup_alter_ne by done. rewrite !lookup_omap.
    destruct (b_nodes b !! k') as [n'|] eqn:Hk'; [|done]. simpl.
    rewrite list_lookup_alter_ne; [done|]. intros ->.
    destruct (Hinv k n' Hk) as (node & Hn & Hkey).
    destruct (Hinv k' n' Hk') as (node' & Hn' & Hkey'). congruence.
Qed.

End BuilderFacts.

(** A failed call on the graph for node [b]: the inputs and END added
    afterwards do not matter. *)
Lemma first_error_sticks_witness :
  @Compile listedOrder edgeLog bool bool unit edgeLogGraph exCompiler [false]
    (foldl perform (AddNode exFailingAdd "b" (NewWorkflow [])).2
       [CallAddInput 0 [To "y" (NewMapping "nodeA")]; CallAddEnd [NewMapping "b"]])
  = Return ([], None, Some (ErrOf (ErrExternal "node already present"))).
Proof.
  exact (@first_error_sticks listedOrder edgeLog bool bool unit edgeLogGraph exCompiler
           (NewWorkflow []) exFailingAdd "b" (ErrExternal "node already present")
           [CallAddInput 0 [To "y" (NewMapping "nodeA")]; CallAddEnd [NewMapping "b"]]
           [false] eq_refl eq_refl).
Defined.

(** [exBuilder] compiles. *)
Lemma Compile_success_shows_witness :
  b_err exBuilder = None
  ∧ @addEdgesWithMapping listedOrder edgeLog edgeLogGraph (workflowOf exBuilder)
    = Return ([("nodeA", "b", [To "y" (NewMapping "nodeA")]);
               ("nodeB", "b", [To "z" (NewMapping "nodeB")]);
               ("b", "end", [])], None).
Proof.
  pose proof (@Compile_success_shows listedOrder edgeLog bool bool unit edgeLogGraph
                exCompiler exBuilder [false] _ (Some tt) eq_refl) as Hw.
  exact (conj (proj1 Hw) (proj1 (proj2 (proj2 Hw)))).
Defined.

(** The pointer of node [b] in [exBuilder], before its second input. *)
Lemma AddInput_reaches_its_node_only_witness :
  nodes (workflowOf
           (AddInput 0 [To "z" (NewMapping "nodeB")]
              (foldl perform (NewWorkflow ([] : edgeLog))
                 [CallAddNode (λ g, (g, None)) "b";
                  CallAddInput 0 [To "y" (NewMapping "nodeA")]])))
  = alter (λ node, mkWorkflowNode (key node)
                     (inputs node ++ [To "z" (NewMapping "nodeB")])) "b"
      (nodes (workflowOf
                (foldl perform (NewWorkflow ([] : edgeLog))
                   [CallAddNode (λ g, (g, None)) "b";
                    CallAddInput 0 [To "y" (NewMapping "nodeA")]]))).
Proof.
  exact (@AddInput_reaches_its_node_only edgeLog []
           [CallAddNode (λ g, (g, None)) "b";
            CallAddInput 0 [To "y" (NewMapping "nodeA")]]
           "b" 0 [To "z" (NewMapping "nodeB")] eq_refl).
Defined.
